(** * root-relay: the WebSocket relay hub of [server.js]

    A shallow embedding of the connection registry, the heartbeat, the
    per-connection rate limiter, the router and the close handler of
    [server.js] (its newest revision, the one with [upgradeLimiter] and the
    [/firmware/observer] route), and of [getPublicObjectURL] of
    [s3Client.js].

    The server is single threaded: every handler runs to completion, so a
    handler is a function from the state before to the state after together
    with the calls it made on the [ws] API and on [console]. *)

From Stdlib Require Import ZArith Floats Ascii.
From stdpp Require Import gmap strings list fin_maps.

(** ** JavaScript values *)

#[local] Set Warnings "-register-all".

(** What [JSON.parse] can return.  A property read that finds nothing gives
    [undefined], which is [None] in an [option JSValue]. *)
Inductive JSValue :=
| JSNull
| JSBoolean (b : bool)
| JSNumber (x : float)
| JSString (s : string)
| JSArray (xs : list JSValue)
| JSObject (props : list (string * JSValue)).

Inductive JSError :=
| SyntaxError
| TypeError
| Error (message : string).

Global Instance JSError_eq_dec : EqDecision JSError.
Proof. solve_decision. Defined.

(** [JSON.parse] and [JSON.stringify] belong to the JavaScript engine. *)
Class JSON := {
  JSON_parse : string → option JSValue;   (* [None]: throws a SyntaxError *)
  JSON_stringify : JSValue → string
}.

(** A statement inside [try]: a value, or a thrown error. *)
Definition Exc (A : Type) : Type := (JSError + A)%type.
Definition throw {A} (e : JSError) : Exc A := inl e.
Global Instance Exc_ret : MRet Exc := λ A a, inr a.
Global Instance Exc_bind : MBind Exc := λ A B k c,
  match c with
  | inl e => inl e
  | inr a => k a
  end.

Fixpoint own_property (name : string) (props : list (string * JSValue))
  : option JSValue :=
  match props with
  | [] => None
  | (k, v) :: rest => if bool_decide (k = name) then Some v
                      else own_property name rest
  end.

(** [message.name] for the three names the server reads ([target],
    [deviceId], [productId]): no built-in prototype defines them, so only an
    object's own property can answer; reading a property of [null] throws. *)
Definition member (message : JSValue) (name : string) : Exc (option JSValue) :=
  match message with
  | JSNull => throw TypeError
  | JSObject props => mret (own_property name props)
  | _ => mret None
  end.

(** [!!v] *)
Definition truthy (v : option JSValue) : bool :=
  match v with
  | None => false
  | Some JSNull => false
  | Some (JSBoolean b) => b
  | Some (JSNumber x) => negb (PrimFloat.is_zero x || PrimFloat.is_nan x)
  | Some (JSString s) => negb (bool_decide (s = ""))
  | Some (JSArray _) => true
  | Some (JSObject _) => true
  end.

(** [!!s] for what [searchParams.get] returns and for [ws.deviceId]:
    [null]/[undefined] or a string. *)
Definition truthy_str (s : option string) : bool :=
  match s with
  | None => false
  | Some s => negb (bool_decide (s = ""))
  end.

(** [[..strings..].includes(v)]: SameValueZero, so only a string can match. *)
Definition includes (l : list string) (v : option JSValue) : bool :=
  match v with
  | Some (JSString s) => bool_decide (s ∈ l)
  | _ => false
  end.

(** [v == "s"] where [v] has passed [includes]: both sides are strings. *)
Definition loose_eq (v : option JSValue) (s : string) : bool :=
  match v with
  | Some (JSString t) => bool_decide (t = s)
  | _ => false
  end.

(** [map.get(key)] on a [Map] whose keys are all strings. *)
Definition Map_get (m : gmap string (list string)) (key : option JSValue)
  : option (list string) :=
  match key with
  | Some (JSString k) => m !! k
  | _ => None
  end.

(** ** Sockets *)

Inductive ReadyState := CONNECTING | OPEN | CLOSING | CLOSED.

Global Instance ReadyState_eq_dec : EqDecision ReadyState.
Proof. solve_decision. Defined.

(** A [ws] object with the fields the server hangs on it.  [listeners] tells
    whether the connection callback got as far as [ws.on(...)]. *)
Record WebSocket := mkWebSocket {
  clientId : string;
  isAlive : bool;
  isTerminating : bool;
  messageCount : Z;
  messageWindow : Z;
  deviceId : option string;
  productId : option string;
  readyState : ReadyState;
  listeners : bool
}.

Definition set_isAlive (b : bool) (ws : WebSocket) : WebSocket :=
  mkWebSocket (clientId ws) b (isTerminating ws) (messageCount ws)
    (messageWindow ws) (deviceId ws) (productId ws) (readyState ws)
    (listeners ws).

Definition set_isTerminating (b : bool) (ws : WebSocket) : WebSocket :=
  mkWebSocket (clientId ws) (isAlive ws) b (messageCount ws)
    (messageWindow ws) (deviceId ws) (productId ws) (readyState ws)
    (listeners ws).

Definition set_messageCount (n : Z) (ws : WebSocket) : WebSocket :=
  mkWebSocket (clientId ws) (isAlive ws) (isTerminating ws) n
    (messageWindow ws) (deviceId ws) (productId ws) (readyState ws)
    (listeners ws).

Definition set_messageWindow (t : Z) (ws : WebSocket) : WebSocket :=
  mkWebSocket (clientId ws) (isAlive ws) (isTerminating ws) (messageCount ws)
    t (deviceId ws) (productId ws) (readyState ws) (listeners ws).

Definition set_deviceId (d : option string) (ws : WebSocket) : WebSocket :=
  mkWebSocket (clientId ws) (isAlive ws) (isTerminating ws) (messageCount ws)
    (messageWindow ws) d (productId ws) (readyState ws) (listeners ws).

Definition set_productId (p : option string) (ws : WebSocket) : WebSocket :=
  mkWebSocket (clientId ws) (isAlive ws) (isTerminating ws) (messageCount ws)
    (messageWindow ws) (deviceId ws) p (readyState ws) (listeners ws).

Definition set_readyState (rs : ReadyState) (ws : WebSocket) : WebSocket :=
  mkWebSocket (clientId ws) (isAlive ws) (isTerminating ws) (messageCount ws)
    (messageWindow ws) (deviceId ws) (productId ws) rs (listeners ws).

Definition set_listeners (b : bool) (ws : WebSocket) : WebSocket :=
  mkWebSocket (clientId ws) (isAlive ws) (isTerminating ws) (messageCount ws)
    (messageWindow ws) (deviceId ws) (productId ws) (readyState ws) b.

(** What [ws.close(code, reason)] and [ws.terminate()] of the [ws] package do
    to [readyState]: nothing on a closed socket, [CLOSING] otherwise; the
    socket is [CLOSED] when its 'close' event fires. *)
Definition WebSocket_close (ws : WebSocket) : WebSocket :=
  match readyState ws with
  | CLOSED => ws
  | CLOSING => ws
  | _ => set_readyState CLOSING ws
  end.

Definition WebSocket_terminate (ws : WebSocket) : WebSocket :=
  match readyState ws with
  | CLOSED => ws
  | _ => set_readyState CLOSING ws
  end.

(** The calls a handler makes on sockets and on the console. *)
Inductive Effect :=
| ws_send (r : nat) (data : string)
| ws_close (r : nat) (code : Z) (reason : string)
| ws_terminate (r : nat)
| ws_ping (r : nat)
| console_error (text : string) (err : option JSError).

Global Instance Effect_eq_dec : EqDecision Effect.
Proof. solve_decision. Defined.

(** ** The server state *)

(** [heap] holds the [ws] objects by reference; [wss_clients] is the
    [wss.clients] set in insertion order; [clients] is the object
    [clients], from client id to a reference; the two [Map]s go from an
    identifier to an array of client ids. *)
Record Relay := mkRelay {
  heap : gmap nat WebSocket;
  wss_clients : list nat;
  clients : gmap string nat;
  deviceIdClients : gmap string (list string);
  productIdClients : gmap string (list string)
}.

Definition initial : Relay := mkRelay ∅ [] ∅ ∅ ∅.

Definition set_heap (h : gmap nat WebSocket) (s : Relay) : Relay :=
  mkRelay h (wss_clients s) (clients s) (deviceIdClients s)
    (productIdClients s).

Definition set_wss_clients (l : list nat) (s : Relay) : Relay :=
  mkRelay (heap s) l (clients s) (deviceIdClients s) (productIdClients s).

Definition set_clients (c : gmap string nat) (s : Relay) : Relay :=
  mkRelay (heap s) (wss_clients s) c (deviceIdClients s) (productIdClients s).

Definition set_deviceIdClients (m : gmap string (list string)) (s : Relay)
  : Relay :=
  mkRelay (heap s) (wss_clients s) (clients s) m (productIdClients s).

Definition set_productIdClients (m : gmap string (list string)) (s : Relay)
  : Relay :=
  mkRelay (heap s) (wss_clients s) (clients s) (deviceIdClients s) m.

(** An assignment to a field of the object behind reference [r]. *)
Definition store (r : nat) (ws : WebSocket) (s : Relay) : Relay :=
  set_heap (<[r := ws]> (heap s)) s.

(** ** The handlers of [server.js] *)

(** [wss.on("connection", (ws, req) => ...)], for a request whose URL has
    been parsed: the listener without its line
    [const url = new URL(req.url, ...)], which [connection_listener] below
    adds.  [r] is the reference of the new [ws] object, which the [ws]
    package has already added to [wss.clients]; [uuid] is what
    [randomUUID()] returns, [now] what [Date.now()] returns, and
    [device_id], [product_id] what [url.searchParams.get] returns for
    "device-id" and "product-id". *)
Definition on_connection (r : nat) (uuid : string) (now : Z)
    (device_id product_id : option string) (s : Relay) : Relay * list Effect :=
  let ws := mkWebSocket uuid true false 0 now None None OPEN false in
  let s := set_wss_clients (wss_clients s ++ [r]) (store r ws s) in
  if negb (truthy_str device_id) && negb (truthy_str product_id) then
    (store r (WebSocket_close ws) s,
     [ws_close r 1008 "Missing device-id or product-id"])
  else if truthy_str device_id && truthy_str product_id then
    (store r (WebSocket_close ws) s,
     [ws_close r 1008 "Can't provide both device-id and product-id"])
  else
    let s := set_clients (<[uuid := r]> (clients s)) s in
    let s :=
      match device_id with
      | Some d =>
          if truthy_str device_id then
            set_deviceIdClients
              (<[d := default [] (deviceIdClients s !! d) ++ [uuid]]>
                 (deviceIdClients s)) s
          else s
      | None => s
      end in
    let ws := if truthy_str device_id then set_deviceId device_id ws else ws in
    let s :=
      match product_id with
      | Some p =>
          if truthy_str product_id then
            set_productIdClients
              (<[p := default [] (productIdClients s !! p) ++ [uuid]]>
                 (productIdClients s)) s
          else s
      | None => s
      end in
    let ws :=
      if truthy_str product_id then set_productId product_id ws else ws in
    (store r (set_listeners true ws) s, []).





(** [ws.on('pong', () => { ws.isAlive = true; })] *)
Definition on_pong (r : nat) (s : Relay) : Relay * list Effect :=
  match heap s !! r with
  | Some ws =>
      if listeners ws then (store r (set_isAlive true ws) s, []) else (s, [])
  | None => (s, [])
  end.

(** The body of one [targets.forEach] callback.  A target id comes from a
    bucket, so it is a UUID and never a name that [clients] would find on
    [Object.prototype]. *)
Definition relay_to `{JSON} (s : Relay) (message : JSValue)
    (targetClientId : string) : list Effect :=
  match clients s !! targetClientId with
  | Some target =>
      match heap s !! target with
      | Some targetWs =>
          if bool_decide (readyState targetWs = OPEN)
          then [ws_send target (JSON_stringify message)]
          else []
      | None => []
      end
  | None => []
  end.

(** The [try] block of the message listener. *)
Definition route `{JSON} (s : Relay) (msg : string) : Exc (list Effect) :=
  message ← match JSON_parse msg with
            | Some v => mret v
            | None => throw SyntaxError
            end;
  target ← member message "target";
  (if negb (includes ["device"; "product"] target)
   then throw (Error "Message target is invalid!") else mret tt);;
  if loose_eq target "device" then
    deviceId ← member message "deviceId";
    (if negb (truthy deviceId)
     then throw (Error "Message lacks device ID!") else mret tt);;
    let targets := default [] (Map_get (deviceIdClients s) deviceId) in
    mret (targets ≫= relay_to s message)
  else if loose_eq target "product" then
    productId ← member message "productId";
    (if negb (truthy productId)
     then throw (Error "Message lacks product ID!") else mret tt);;
    let targets := default [] (Map_get (productIdClients s) productId) in
    mret (targets ≫= relay_to s message)
  else mret [].

(** The [try] block with its [catch]: what was sent, or the logged error. *)
Definition try_route `{JSON} (s : Relay) (msg : string) : list Effect :=
  match route s msg with
  | inr sent => sent
  | inl error =>
      [console_error "Error occured in WebSocket message callback:"
         (Some error)]
  end.

(** The rate limiter at the head of the message listener: the socket after
    the window and counter updates.  Clock readings and the counter are
    integers far below 2^53, where JavaScript numbers are exact. *)
Definition count_message (now : Z) (ws : WebSocket) : WebSocket :=
  let ws :=
    if (now - messageWindow ws >? 1000)%Z
    then set_messageCount 0 (set_messageWindow now ws)
    else ws in
  set_messageCount (messageCount ws + 1) ws.

(** [ws.on("message", (msg) => ...)]; [now] is what [Date.now()] returns. *)
Definition on_message `{JSON} (r : nat) (msg : string) (now : Z) (s : Relay)
  : Relay * list Effect :=
  match heap s !! r with
  | Some ws =>
      if listeners ws then
        let ws := count_message now ws in
        if (messageCount ws >? 25)%Z then
          if negb (isTerminating ws) then
            (store r (WebSocket_close (set_isTerminating true ws)) s,
             [ws_close r 1008 "Rate limit exceeded";
              console_error
                ("WebSocket connection " +:+ clientId ws +:+
                 " closed due to rate limit exceeded.") None])
          else (store r ws s, [])
        else
          let s := store r ws s in (s, try_route s msg)
      else (s, [])
  | None => (s, [])
  end.

(** One of the two blocks of the close listener: drop [id] from the array
    under [key] in [m]; delete the key when nothing is left. *)
Definition unregister (key : option string) (id : string)
    (m : gmap string (list string)) : gmap string (list string) :=
  match key with
  | Some k =>
      if truthy_str key then
        let remaining := filter (λ e, e ≠ id) (default [] (m !! k)) in
        if bool_decide (length remaining = 0) then delete k m
        else <[k := remaining]> m
      else m
  | None => m
  end.

(** [ws.on("close", () => ...)] as registered by the server. *)
Definition close_listener (ws : WebSocket) (s : Relay) : Relay :=
  let s := set_clients (delete (clientId ws) (clients s)) s in
  let s :=
    set_productIdClients
      (unregister (productId ws) (clientId ws) (productIdClients s)) s in
  set_deviceIdClients
    (unregister (deviceId ws) (clientId ws) (deviceIdClients s)) s.

(** The 'close' event of socket [r]: the [ws] package marks it [CLOSED] and
    drops it from [wss.clients] (the listener it added before announcing the
    connection), then the server's listener runs if there is one. *)
Definition on_close (r : nat) (s : Relay) : Relay * list Effect :=
  match heap s !! r with
  | Some ws =>
      let s := store r (set_readyState CLOSED ws) s in
      let s := set_wss_clients (filter (λ x, x ≠ r) (wss_clients s)) s in
      if listeners ws then (close_listener ws s, []) else (s, [])
  | None => (s, [])
  end.

(** [ws.on("error", (error) => ...)]: the listener, which a socket has
    only once the connection callback has run past its two checks.  It
    changes nothing; without it nothing is logged.  What Node does with an
    'error' event that finds no listener is in [emit_error]. *)
Definition on_error (r : nat) (error : JSError) (s : Relay)
  : Relay * list Effect :=
  match heap s !! r with
  | Some ws =>
      if listeners ws then
        (s, [console_error
               ("Error in WebSocket client " +:+ clientId ws +:+ ":")
               (Some error)])
      else (s, [])
  | None => (s, [])
  end.

(** An 'error' event on socket [r] as [EventEmitter.emit] delivers it: to
    the listener when the socket has one, and otherwise thrown.  A socket
    rejected at admission returned from the connection callback before
    [ws.on("error", ...)], so its 'error' event is thrown; nothing catches
    it, the process ends and no state of the relay follows. *)
Definition emit_error (r : nat) (error : JSError) (s : Relay)
  : Exc (Relay * list Effect) :=
  match heap s !! r with
  | Some ws => if listeners ws then mret (on_error r error s) else throw error
  | None => mret (on_error r error s)
  end.

(** The [setInterval] period of the heartbeat, in milliseconds. *)
Definition heartbeat_period : Z := 15000.

(** The callback of [wss.clients.forEach] in the heartbeat. *)
Definition heartbeat_one (r : nat) (s : Relay) : Relay * list Effect :=
  match heap s !! r with
  | Some ws =>
      if negb (isAlive ws) then
        (store r (WebSocket_terminate ws) s, [ws_terminate r])
      else (store r (set_isAlive false ws) s, [ws_ping r])
  | None => (s, [])
  end.

Fixpoint heartbeat_each (rs : list nat) (s : Relay) : Relay * list Effect :=
  match rs with
  | [] => (s, [])
  | r :: rest =>
      let '(s1, fx1) := heartbeat_one r s in
      let '(s2, fx2) := heartbeat_each rest s1 in
      (s2, fx1 ++ fx2)
  end.

Definition heartbeat (s : Relay) : Relay * list Effect :=
  heartbeat_each (wss_clients s) s.

(** ** Events and runs *)

(** What the runtime delivers to the server while the server runs on.  A
    [Connection] is a "connection" event whose URL [new URL] has accepted,
    with the two parameters read from it; a [SocketError] is an 'error'
    event.  Two deliveries end in an exception that nothing catches, and
    with it the process: a connection whose URL [new URL] refuses
    ([connection_listener]) and an 'error' event on a socket without
    listeners ([emit_error]).  No state follows them, so they add nothing to
    the states a run can reach; on the second, [step] leaves the state where
    it is. *)
Inductive Event :=
| Connection (r : nat) (uuid : string) (now : Z)
    (device_id product_id : option string)
| Message (r : nat) (msg : string) (now : Z)
| Pong (r : nat)
| Close (r : nat)
| SocketError (r : nat) (error : JSError)
| Tick.

Global Instance Event_eq_dec : EqDecision Event.
Proof. solve_decision. Defined.

Definition step `{JSON} (e : Event) (s : Relay) : Relay * list Effect :=
  match e with
  | Connection r uuid now device_id product_id =>
      on_connection r uuid now device_id product_id s
  | Message r msg now => on_message r msg now s
  | Pong r => on_pong r s
  | Close r => on_close r s
  | SocketError r error => on_error r error s
  | Tick => heartbeat s
  end.

Fixpoint run `{JSON} (es : list Event) (s : Relay) : Relay * list Effect :=
  match es with
  | [] => (s, [])
  | e :: rest =>
      let '(s1, fx1) := step e s in
      let '(s2, fx2) := run rest s1 in
      (s2, fx1 ++ fx2)
  end.

(** What the runtime guarantees: a new socket is a new object and
    [randomUUID()] does not repeat an id; a socket emits events only until
    its 'close' event, that is while it is in [wss.clients]. *)
Definition allowed (s : Relay) (e : Event) : Prop :=
  match e with
  | Connection r uuid _ _ _ =>
      heap s !! r = None ∧ map_Forall (λ _ ws, clientId ws ≠ uuid) (heap s)
  | Message r _ _ => r ∈ wss_clients s
  | Pong r => r ∈ wss_clients s
  | Close r => r ∈ wss_clients s
  | SocketError r _ => r ∈ wss_clients s
  | Tick => True
  end.

Fixpoint allowed_run `{JSON} (es : list Event) (s : Relay) : Prop :=
  match es with
  | [] => True
  | e :: rest => allowed s e ∧ allowed_run rest (step e s).1
  end.

Global Instance allowed_dec s e : Decision (allowed s e).
Proof. destruct e; cbn [allowed]; apply _. Defined.

Global Instance allowed_run_dec `{JSON} es s : Decision (allowed_run es s).
Proof.
  revert s. induction es as [|e es IH]; intros s; cbn [allowed_run]; apply _.
Defined.

Inductive reachable `{JSON} : Relay → Prop :=
| reachable_initial : reachable initial
| reachable_step s e : reachable s → allowed s e → reachable (step e s).1.

(** ** Vocabulary of the claims *)

(** The connection behind [ws] is registered: the server attached its
    listeners and the 'close' event has not fired. *)
Definition registered (ws : WebSocket) : Prop :=
  listeners ws = true ∧ readyState ws ≠ CLOSED.

(** Client id [id] is a member of some bucket of [m]. *)
Definition in_registry (id : string) (m : gmap string (list string)) : Prop :=
  ∃ k ids, m !! k = Some ids ∧ id ∈ ids.

(** Client id [id] is in neither the Connection Table nor a bucket. *)
Definition absent (id : string) (s : Relay) : Prop :=
  clients s !! id = None
  ∧ ¬ in_registry id (deviceIdClients s)
  ∧ ¬ in_registry id (productIdClients s).

(** The two namespaces of identifiers, with what the source spells out
    once per namespace: the value of [target], the name of the id field, the
    [Map] and the field of [ws]. *)
Inductive Namespace := device | product.

Global Instance Namespace_eq_dec : EqDecision Namespace.
Proof. solve_decision. Defined.


Definition target_of (ns : Namespace) : string :=
  match ns with device => "device" | product => "product" end.

Definition field_of (ns : Namespace) : string :=
  match ns with device => "deviceId" | product => "productId" end.

Definition registry_of (ns : Namespace) (s : Relay)
  : gmap string (list string) :=
  match ns with
  | device => deviceIdClients s
  | product => productIdClients s
  end.

Definition bound_to (ns : Namespace) (ws : WebSocket) : option string :=
  match ns with device => deviceId ws | product => productId ws end.

(** The frames the router drops: not JSON; a [target] that is neither
    "device" nor "product" (or no object to read it from); a falsy id field
    for the target, which is the case of an absent and of an empty one. *)
Inductive malformed `{JSON} (msg : string) : Prop :=
| not_json : JSON_parse msg = None → malformed msg
| bad_target message :
    JSON_parse msg = Some message →
    member message "target" ≠ inr (Some (JSString "device")) →
    member message "target" ≠ inr (Some (JSString "product")) →
    malformed msg
| no_id message ns id :
    JSON_parse msg = Some message →
    member message "target" = inr (Some (JSString (target_of ns))) →
    member message (field_of ns) = inr id →
    truthy id = false →
    malformed msg.

(** The sockets a message addressed to the bucket [ids] is sent to: for each
    id in array order, its entry of [clients] if that socket is open. *)
Definition recipients (s : Relay) (ids : list string) : list nat :=
  ids ≫= λ id,
    match clients s !! id with
    | Some target =>
        match heap s !! target with
        | Some targetWs =>
            if bool_decide (readyState targetWs = OPEN) then [target] else []
        | None => []
        end
    | None => []
    end.

Definition is_send (e : Effect) : bool :=
  match e with
  | ws_send _ _ => true
  | _ => false
  end.

(** How many times a run closed socket [r] for exceeding the rate. *)
Definition rate_closes (r : nat) (fx : list Effect) : nat :=
  length (filter (λ e, e = ws_close r 1008 "Rate limit exceeded") fx).

(** How many such closes socket [r] can still get: none once
    [isTerminating] is set. *)
Definition closes_left (r : nat) (s : Relay) : nat :=
  match heap s !! r with
  | Some ws => if isTerminating ws then 0 else 1
  | None => 1
  end.

(** Frames arriving one after the other on socket [r], each with the clock
    reading at its arrival. *)
Definition messages (r : nat) (frames : list (string * Z)) : list Event :=
  map (λ f, Message r f.1 f.2) frames.

Definition is_close (e : Effect) : bool :=
  match e with
  | ws_close _ _ _ => true
  | _ => false
  end.

(** What one heartbeat tick does to a socket it visits. *)
Definition after_tick (ws : WebSocket) : WebSocket :=
  if isAlive ws then set_isAlive false ws else WebSocket_terminate ws.

(** ** The firmware route and [getPublicObjectURL] *)

(** [config.s3Region] and [config.s3Domain] of [config.js]. *)
Definition s3Region : string := "fra1".
Definition s3Domain : string := "digitaloceanspaces.com".

(** An entry of [response.Contents]. *)
Record S3Object := mkS3Object {
  Key : string;
  LastModified : Z
}.

(** [getPublicObjectURL(key)]; [bucket] is [process.env.S3_BUCKET_NAME]. *)
Definition getPublicObjectURL (bucket key : string) : string :=
  "https://" +:+ bucket +:+ "." +:+ s3Region +:+ "." +:+ s3Domain +:+ "/"
  +:+ key.

(** [key.endsWith('/')] *)
Fixpoint endsWith_slash (key : string) : bool :=
  match key with
  | EmptyString => false
  | String c EmptyString => bool_decide (c = "/"%char)
  | String _ rest => endsWith_slash rest
  end.

(** [\d] *)
Definition is_digit (c : ascii) : bool :=
  (48 <=? nat_of_ascii c)%nat && (nat_of_ascii c <=? 57)%nat.

(** The longest run of digits at the head of [s], and what follows it. *)
Fixpoint digits (s : string) : string * string :=
  match s with
  | EmptyString => (EmptyString, EmptyString)
  | String c rest =>
      if is_digit c then
        let '(d, tail) := digits rest in (String c d, tail)
      else (EmptyString, s)
  end.

(** [\.] at the head of [s]: what follows the dot. *)
Definition dot (s : string) : option string :=
  match s with
  | String c rest => if bool_decide (c = "."%char) then Some rest else None
  | EmptyString => None
  end.

(** [\d+\.\d+\.\d+] matched at the head of [s].  Each [\d+] is greedy, and
    giving digits back never helps: what follows would be a digit where a
    dot is wanted. *)
Definition semver_here (s : string) : option string :=
  let '(major, s1) := digits s in
  if bool_decide (major = "") then None else
  match dot s1 with
  | Some s2 =>
      let '(minor, s3) := digits s2 in
      if bool_decide (minor = "") then None else
      match dot s3 with
      | Some s4 =>
          let '(patch, _) := digits s4 in
          if bool_decide (patch = "") then None
          else Some (major +:+ "." +:+ minor +:+ "." +:+ patch)
      | None => None
      end
  | None => None
  end.

(** [key.match(/(\d+\.\d+\.\d+)/)]: the leftmost match, group 1. *)
Fixpoint versionMatch (key : string) : option string :=
  match semver_here key with
  | Some v => Some v
  | None =>
      match key with
      | EmptyString => None
      | String _ rest => versionMatch rest
      end
  end.

Inductive Body :=
| error_body (error : string)
| firmware_body (version url : string).

(** [app.get("/firmware/observer", ...)].  [listing] is the outcome of
    [s3Client.send(command)]: [None] when it rejects, else
    [response.Contents], itself [None] when undefined.  The result is the
    status and the JSON body of the reply. *)
Definition firmware_observer (bucket : string)
    (listing : option (option (list S3Object))) : Z * Body :=
  match listing with
  | None => (500%Z, error_body "Failed to fetch firmware")
  | Some Contents =>
      let files :=
        filter (λ item, endsWith_slash (Key item) = false)
          (default [] Contents) in
      match files with
      | [] => (404%Z, error_body "No firmware found!")
      | file :: _ =>
          match versionMatch (Key file) with
          | None => (404%Z, error_body "No version found in filename!")
          | Some version =>
              (200%Z, firmware_body version
                        (getPublicObjectURL bucket (Key file)))
          end
      end
  end.

(** The newest object of a listing: none is more recent. *)
Definition newest (files : list S3Object) (f : S3Object) : Prop :=
  f ∈ files ∧ ∀ g, g ∈ files → (LastModified g ≤ LastModified f)%Z.

Fixpoint all_digits (s : string) : bool :=
  match s with
  | EmptyString => true
  | String c rest => is_digit c && all_digits rest
  end.

(** [v] is a text of the form digits, dot, digits, dot, digits. *)
Definition semver (v : string) : Prop :=
  ∃ a b c, v = a +:+ "." +:+ b +:+ "." +:+ c
           ∧ a ≠ "" ∧ b ≠ "" ∧ c ≠ ""
           ∧ all_digits a = true ∧ all_digits b = true
           ∧ all_digits c = true.

(** [key] has a substring of that form. *)
Definition has_semver (key : string) : Prop :=
  ∃ pre v post, key = pre +:+ v +:+ post ∧ semver v.

(** A listing as the object store returns it, in key order: the folder
    placeholder, an older build and a newer one. *)
Definition sample_listing : list S3Object :=
  [mkS3Object "rootprivacy/firmware/observer/" 50;
   mkS3Object "rootprivacy/firmware/observer/observer-1.0.0.bin" 100;
   mkS3Object "rootprivacy/firmware/observer/observer-1.0.1.bin" 200].

(** ** Well-formed states *)

(** A registry [m] agrees with the sockets of [h] whose identifier is read
    by [key]: a bucket is never empty and holds only ids of registered
    sockets bound to that bucket's identifier, and every registered socket
    bound to an identifier is in that identifier's bucket. *)
Definition registry_ok (key : WebSocket → option string)
    (h : gmap nat WebSocket) (m : gmap string (list string)) : Prop :=
  (∀ k ids, m !! k = Some ids →
     ids ≠ [] ∧
     ∀ id, id ∈ ids →
       ∃ r ws, h !! r = Some ws ∧ clientId ws = id ∧ key ws = Some k
               ∧ registered ws)
  ∧ (∀ r ws k, h !! r = Some ws → registered ws → key ws = Some k →
       k ≠ "" ∧ ∃ ids, m !! k = Some ids ∧ clientId ws ∈ ids).

Record wf (s : Relay) : Prop := mk_wf {
  wf_nodup : NoDup (wss_clients s);
  wf_live : ∀ r, r ∈ wss_clients s ↔
                 ∃ ws, heap s !! r = Some ws ∧ readyState ws ≠ CLOSED;
  wf_uuid : ∀ r1 r2 w1 w2,
      heap s !! r1 = Some w1 → heap s !! r2 = Some w2 →
      clientId w1 = clientId w2 → r1 = r2;
  wf_clients : ∀ id r, clients s !! id = Some r ↔
                 ∃ ws, heap s !! r = Some ws ∧ clientId ws = id
                       ∧ registered ws;
  wf_devices : registry_ok deviceId (heap s) (deviceIdClients s);
  wf_products : registry_ok productId (heap s) (productIdClients s);
  wf_role : ∀ r ws, heap s !! r = Some ws →
                    deviceId ws = None ∨ productId ws = None
}.

(** Two versions of one socket object that differ only in what the
    heartbeat, the rate limiter, [close] and [terminate] write. *)
Definition same_binding (a b : WebSocket) : Prop :=
  clientId a = clientId b ∧ deviceId a = deviceId b
  ∧ productId a = productId b ∧ listeners a = listeners b
  ∧ (readyState a = CLOSED ↔ readyState b = CLOSED).

Definition same_bindings (h h' : gmap nat WebSocket) : Prop :=
  ∀ r, match h !! r, h' !! r with
       | Some a, Some b => same_binding a b
       | None, None => True
       | _, _ => False
       end.

(** [s'] differs from [s] only in such writes. *)
Definition same_registry (s s' : Relay) : Prop :=
  same_bindings (heap s) (heap s')
  ∧ wss_clients s' = wss_clients s
  ∧ clients s' = clients s
  ∧ deviceIdClients s' = deviceIdClients s
  ∧ productIdClients s' = productIdClients s.

(** ** Sample data *)

Definition quoted (s : string) : string :=
  String "034" (s +:+ String "034" EmptyString).

Fixpoint sample_members (props : list (string * JSValue)) : string :=
  match props with
  | [] => ""
  | (k, v) :: rest =>
      quoted k +:+ ":" +:+
      match v with
      | JSString t => quoted t
      | _ => "null"
      end +:+
      match rest with
      | [] => ""
      | _ => "," +:+ sample_members rest
      end
  end.

(** A printer for flat objects of plain strings, and a reader for a fixed
    set of frames: enough JSON to run the handlers on the samples below. *)
Definition sample_stringify (v : JSValue) : string :=
  match v with
  | JSObject props => "{" +:+ sample_members props +:+ "}"
  | JSString t => quoted t
  | _ => "null"
  end.

Definition to_lamp : JSValue :=
  JSObject [("target", JSString "device"); ("deviceId", JSString "lamp");
            ("payload", JSString "on")].

Definition to_observer : JSValue :=
  JSObject [("target", JSString "product");
            ("productId", JSString "observer-7");
            ("payload", JSString "snap")].

Definition to_nobody : JSValue :=
  JSObject [("target", JSString "server"); ("deviceId", JSString "lamp")].

Definition no_device_id : JSValue :=
  JSObject [("target", JSString "device"); ("deviceId", JSString "")].

Definition sample_frames : list JSValue :=
  [to_lamp; to_observer; to_nobody; no_device_id; JSNull].

Definition sample_parse (msg : string) : option JSValue :=
  head (filter (λ v, sample_stringify v = msg) sample_frames).

Definition sample_JSON : JSON := Build_JSON sample_parse sample_stringify.

(** Two phones on device id "lamp" and one product "observer-7", all
    connected at time 0. *)
Definition sample_events : list Event :=
  [Connection 0 "uuid-a" 0 (Some "lamp") None;
   Connection 1 "uuid-b" 0 (Some "lamp") None;
   Connection 2 "uuid-c" 0 None (Some "observer-7")].

Definition sample_relay : Relay := (@run sample_JSON sample_events initial).1.

(** ** Further vocabulary *)

(** The events whose handlers write to the Connection Table, the registries
    or [wss.clients]. *)
Definition changes_tables (e : Event) : bool :=
  match e with
  | Connection _ _ _ _ _ => true
  | Close _ => true
  | _ => false
  end.

(** What an admitted or a rejected socket looks like for good: an admitted
    one is bound to one non-empty identifier of one namespace, a rejected one
    to none; and an open socket is an admitted one that the rate limiter has
    not closed. *)
Definition socket_ok (ws : WebSocket) : Prop :=
  (if listeners ws
   then (∃ k, k ≠ "" ∧ deviceId ws = Some k ∧ productId ws = None)
        ∨ (∃ k, k ≠ "" ∧ productId ws = Some k ∧ deviceId ws = None)
   else deviceId ws = None ∧ productId ws = None)
  ∧ (readyState ws = OPEN → listeners ws = true ∧ isTerminating ws = false).

(** [b] is a later version of socket object [a]: same binding, and open
    only if [a] was open and no [isTerminating] was written since. *)
Definition later (a b : WebSocket) : Prop :=
  listeners b = listeners a ∧ deviceId b = deviceId a
  ∧ productId b = productId a
  ∧ (readyState b = OPEN →
     readyState a = OPEN ∧ isTerminating b = isTerminating a).

(** The states kept by every event, beyond [wf]: no id twice in a bucket,
    and every socket as [socket_ok] says. *)
Definition tidy (s : Relay) : Prop :=
  (∀ ns k ids, registry_of ns s !! k = Some ids → NoDup ids)
  ∧ (∀ r ws, heap s !! r = Some ws → socket_ok ws).

(** [\d] at the head of [s]. *)
Definition starts_with_digit (s : string) : bool :=
  match s with
  | String c _ => is_digit c
  | EmptyString => false
  end.

(** Folder placeholders: objects whose keys end in a slash. *)
Definition folders (l : list (string * Z)) : list S3Object :=
  map (λ p, mkS3Object (p.1 +:+ "/") p.2) l.

(** The close listener of the first revisions of [server.js]: the result of
    [filter] is dropped, so only the length of the array as stored is
    looked at. *)
Definition unregister_draft (key : option string)
    (m : gmap string (list string)) : gmap string (list string) :=
  match key with
  | Some k =>
      if truthy_str key then
        if bool_decide (length (default [] (m !! k)) = 0) then delete k m
        else m
      else m
  | None => m
  end.

Definition close_listener_draft (ws : WebSocket) (s : Relay) : Relay :=
  let s := set_clients (delete (clientId ws) (clients s)) s in
  let s :=
    set_productIdClients
      (unregister_draft (productId ws) (productIdClients s)) s in
  set_deviceIdClients (unregister_draft (deviceId ws) (deviceIdClients s)) s.

(** A second reader and printer for the samples, with booleans as values. *)
Definition flat_value (v : JSValue) : string :=
  match v with
  | JSString t => quoted t
  | JSBoolean true => "true"
  | JSBoolean false => "false"
  | _ => "null"
  end.

Fixpoint flat_members (props : list (string * JSValue)) : string :=
  match props with
  | [] => ""
  | (k, v) :: rest =>
      quoted k +:+ ":" +:+ flat_value v +:+
      match rest with
      | [] => ""
      | _ => "," +:+ flat_members rest
      end
  end.

Definition flat_stringify (v : JSValue) : string :=
  match v with
  | JSObject props => "{" +:+ flat_members props +:+ "}"
  | _ => flat_value v
  end.

Definition to_true : JSValue :=
  JSObject [("target", JSString "device"); ("deviceId", JSBoolean true)].

Definition to_stranger : JSValue :=
  JSObject [("target", JSString "product"); ("productId", JSString "kettle")].

Definition flat_frames : list JSValue :=
  [to_lamp; to_observer; to_true; to_stranger].

Definition flat_parse (msg : string) : option JSValue :=
  head (filter (λ v, flat_stringify v = msg) flat_frames).

Definition flat_JSON : JSON := Build_JSON flat_parse flat_stringify.

(** The sample state after a request with neither parameter. *)
Definition sample_rejected : Relay :=
  (@run sample_JSON [Connection 3 "uuid-d" 9 None None] sample_relay).1.




(** The call that a heartbeat tick makes on socket [r] when it finds the
    sockets as they are in [s]: [ws.ping()] on one that is alive,
    [ws.terminate()] on one that is not. *)
Definition tick_call (s : Relay) (r : nat) : option Effect :=
  match heap s !! r with
  | Some ws => Some (if isAlive ws then ws_ping r else ws_terminate r)
  | None => None
  end.

(** [e] is a call of the heartbeat on socket [r]. *)
Definition on_socket (r : nat) (e : Effect) : bool :=
  bool_decide (e = ws_ping r ∨ e = ws_terminate r).

(** * Proofs *)

(** ** The close listener *)

Lemma truthy_str_Some k : truthy_str (Some k) = true ↔ k ≠ "".
Proof.
  unfold truthy_str. case_bool_decide; simpl; split; intros; congruence.
Qed.

Section unregister.
Context (id : string) (m : gmap string (list string)).

Lemma unregister_empty_key : unregister (Some "") id m = m.
Proof. reflexivity. Qed.

Lemma unregister_lookup_own k :
  k ≠ "" →
  unregister (Some k) id m !! k =
    match filter (λ e, e ≠ id) (default [] (m !! k)) with
    | [] => None
    | remaining => Some remaining
    end.
Proof.
  intros Hk. unfold unregister.
  rewrite (proj2 (truthy_str_Some k) Hk).
  destruct (filter _ _) as [|e rest] eqn:Hf; simpl.
  - by rewrite lookup_delete_eq.
  - by rewrite lookup_insert_eq.
Qed.

Lemma unregister_lookup_other key k :
  key ≠ Some k → unregister key id m !! k = m !! k.
Proof.
  intros Hne. unfold unregister.
  destruct key as [k0|]; [|done].
  destruct (truthy_str (Some k0)); [|done].
  assert (k0 ≠ k) by congruence.
  case_bool_decide.
  - by rewrite lookup_delete_ne.
  - by rewrite lookup_insert_ne.
Qed.

Lemma unregister_not_elem key k ids :
  unregister key id m !! k = Some ids → key = Some k → k ≠ "" → id ∉ ids.
Proof.
  intros Hl -> Hk. rewrite unregister_lookup_own in Hl by done.
  destruct (filter _ _) as [|e rest] eqn:Hf; [done|].
  inversion Hl; subst. rewrite <- Hf.
  intros [Hne _]%list_elem_of_filter. done.
Qed.

End unregister.

Lemma unregister_idempotent key id (m : gmap string (list string)) :
  unregister key id (unregister key id m) = unregister key id m.
Proof.
  destruct key as [k|]; [|done].
  destruct (decide (k = "")) as [->|Hk]; [done|].
  apply map_eq. intros k'.
  destruct (decide (k' = k)) as [->|Hne].
  - rewrite !unregister_lookup_own by done.
    destruct (filter _ (default [] (m !! k))) as [|e rest] eqn:Hf; [done|].
    simpl. rewrite <- Hf. rewrite list_filter_filter.
    rewrite (list_filter_iff _ (λ e, e ≠ id)) by tauto.
    by rewrite Hf.
  - rewrite !unregister_lookup_other by congruence. done.
Qed.

Lemma filter_ne_idempotent (r : nat) (l : list nat) :
  filter (λ x, x ≠ r) (filter (λ x, x ≠ r) l) = filter (λ x, x ≠ r) l.
Proof. rewrite list_filter_filter. apply list_filter_iff. tauto. Qed.

Lemma close_listener_idempotent ws s :
  close_listener ws (close_listener ws s) = close_listener ws s.
Proof.
  unfold close_listener, set_deviceIdClients, set_productIdClients,
    set_clients; simpl.
  rewrite !unregister_idempotent. by rewrite delete_delete_eq.
Qed.

Lemma on_close_Some r s ws :
  heap s !! r = Some ws →
  on_close r s =
    (let s0 := set_wss_clients (filter (λ x, x ≠ r) (wss_clients s))
                 (store r (set_readyState CLOSED ws) s) in
     if listeners ws then close_listener ws s0 else s0, []).
Proof. intros Hr. unfold on_close. rewrite Hr. by destruct (listeners ws). Qed.

Lemma on_close_None r s : heap s !! r = None → on_close r s = (s, []).
Proof. intros Hr. unfold on_close. by rewrite Hr. Qed.

Lemma on_close_no_effects r s : (on_close r s).2 = [].
Proof.
  unfold on_close. destruct (heap s !! r) as [ws|]; [|done].
  by destruct (listeners ws).
Qed.

(** C6.  Running the close logic a second time for the same connection
    changes nothing: the listener applied twice gives the state of one
    application (the Connection Table and both registries included), and a
    second 'close' event for the same socket leaves the whole state as the
    first left it and makes no call.  The listener is a total function: it
    has no failing branch. *)
Theorem teardown_idempotent :
  (∀ ws s, close_listener ws (close_listener ws s) = close_listener ws s)
  ∧ (∀ ws s,
       let s1 := close_listener ws s in
       let s2 := close_listener ws s1 in
       clients s2 = clients s1
       ∧ deviceIdClients s2 = deviceIdClients s1
       ∧ productIdClients s2 = productIdClients s1)
  ∧ (∀ r s, on_close r (on_close r s).1 = ((on_close r s).1, [])).
Proof.
  split; [exact close_listener_idempotent|]. split.
  - intros ws s. cbv zeta. by rewrite close_listener_idempotent.
  - intros r s. destruct (heap s !! r) as [ws|] eqn:Hr.
    + rewrite (on_close_Some r s ws Hr). cbn [fst].
      erewrite on_close_Some; last first.
      { destruct (listeners ws); cbn [close_listener heap set_deviceIdClients
          set_productIdClients set_clients set_wss_clients store set_heap];
          apply lookup_insert_eq. }
      f_equal. destruct s as [h w c d p].
      destruct (listeners ws) eqn:Hl;
        cbv [close_listener store set_heap set_wss_clients set_clients
             set_deviceIdClients set_productIdClients heap wss_clients
             clients deviceIdClients productIdClients set_readyState
             listeners clientId deviceId productId];
        fold (listeners ws) (clientId ws) (deviceId ws) (productId ws);
        rewrite Hl.
      * by rewrite !unregister_idempotent, delete_delete_eq,
          filter_ne_idempotent, insert_insert_eq.
      * by rewrite filter_ne_idempotent, insert_insert_eq.
    + rewrite (on_close_None r s Hr). cbn [fst]. by apply on_close_None.
Qed.

Lemma unregister_keeps key id (m : gmap string (list string)) k ids id' :
  m !! k = Some ids → id' ∈ ids → id' ≠ id →
  ∃ ids', unregister key id m !! k = Some ids' ∧ id' ∈ ids'.
Proof.
  intros Hk Hin Hne.
  destruct (decide (key = Some k)) as [->|Hkey].
  - destruct (decide (k = "")) as [->|Hnz]; [by eauto|].
    rewrite unregister_lookup_own by done. rewrite Hk. simpl.
    assert (Hf : id' ∈ filter (λ e, e ≠ id) ids)
      by by apply list_elem_of_filter.
    destruct (filter _ ids) as [|e rest]; [by inversion Hf|]. eauto.
  - rewrite unregister_lookup_other by done. eauto.
Qed.

(** C10.  Teardown of a connection touches only that connection's entries:
    every other key of the Connection Table keeps its entry, every bucket
    other than the one of the connection's own identifier is unchanged in
    either registry, every other id stays in the bucket it was in, and the
    'close' event leaves every other socket object as it was. *)
Theorem teardown_frame ws s :
  (∀ id, id ≠ clientId ws →
     clients (close_listener ws s) !! id = clients s !! id)
  ∧ (∀ k, deviceId ws ≠ Some k →
       deviceIdClients (close_listener ws s) !! k = deviceIdClients s !! k)
  ∧ (∀ k, productId ws ≠ Some k →
       productIdClients (close_listener ws s) !! k = productIdClients s !! k)
  ∧ (∀ k ids id, deviceIdClients s !! k = Some ids → id ∈ ids →
       id ≠ clientId ws →
       ∃ ids', deviceIdClients (close_listener ws s) !! k = Some ids'
               ∧ id ∈ ids')
  ∧ (∀ k ids id, productIdClients s !! k = Some ids → id ∈ ids →
       id ≠ clientId ws →
       ∃ ids', productIdClients (close_listener ws s) !! k = Some ids'
               ∧ id ∈ ids')
  ∧ (∀ r r', heap s !! r = Some ws → r' ≠ r →
       heap (on_close r s).1 !! r' = heap s !! r').
Proof.
  unfold close_listener; simpl. repeat split.
  - intros id Hne. by rewrite lookup_delete_ne.
  - intros k Hk. by apply unregister_lookup_other.
  - intros k Hk. by apply unregister_lookup_other.
  - intros k ids id Hk Hin Hne. by eapply unregister_keeps.
  - intros k ids id Hk Hin Hne. by eapply unregister_keeps.
  - intros r r' Hr Hne. unfold on_close. rewrite Hr.
    destruct (listeners ws); simpl; by rewrite lookup_insert_ne.
Qed.

Lemma teardown_frame_witness :
  let ws := mkWebSocket "uuid-a" true false 0 0 (Some "lamp") None OPEN true in
  heap sample_relay !! 0%nat = Some ws
  ∧ clients (close_listener ws sample_relay) !! "uuid-b"
    = clients sample_relay !! "uuid-b"
  ∧ productIdClients (close_listener ws sample_relay) !! "observer-7"
    = productIdClients sample_relay !! "observer-7"
  ∧ (∃ ids', deviceIdClients (close_listener ws sample_relay) !! "lamp"
             = Some ids' ∧ "uuid-b" ∈ ids')
  ∧ heap (on_close 0 sample_relay).1 !! 1%nat = heap sample_relay !! 1%nat.
Proof.
  intros ws.
  destruct (teardown_frame ws sample_relay) as (Hc & _ & Hp & Hd & _ & Hh).
  assert (Hws : heap sample_relay !! 0%nat = Some ws) by reflexivity.
  split; [exact Hws|]. split; [by apply Hc|]. split; [by apply Hp|].
  split.
  - apply (Hd "lamp" ["uuid-a"; "uuid-b"]); [reflexivity| |done].
    apply list_elem_of_here || (apply list_elem_of_further, list_elem_of_here).
  - by apply Hh.
Defined.

(** ** The firmware route *)

Lemma append_cons c s t : String c s +:+ t = String c (s +:+ t).
Proof. reflexivity. Qed.

Lemma append_nil_l s : "" +:+ s = s.
Proof. reflexivity. Qed.

Lemma append_assoc (s t u : string) : (s +:+ t) +:+ u = s +:+ t +:+ u.
Proof.
  induction s as [|c s IH]; [done|]. by rewrite !append_cons, IH.
Qed.

Lemma digits_sound s d t :
  digits s = (d, t) → s = d +:+ t ∧ all_digits d = true.
Proof.
  revert d t. induction s as [|c s IH]; intros d t; simpl.
  - by intros [= <- <-].
  - destruct (is_digit c) eqn:Hc.
    + destruct (digits s) as [d' t'] eqn:Hd. intros [= <- <-].
      destruct (IH d' t' eq_refl) as [-> Hall].
      rewrite append_cons. simpl. by rewrite Hc, Hall.
    + by intros [= <- <-].
Qed.

Lemma digits_app a rest :
  all_digits a = true →
  digits (a +:+ rest) = (a +:+ (digits rest).1, (digits rest).2).
Proof.
  induction a as [|c a IH]; intros Ha.
  - rewrite !append_nil_l. by destruct (digits rest).
  - simpl in Ha. apply andb_prop in Ha as [Hc Ha].
    rewrite append_cons. simpl. rewrite Hc, (IH Ha). done.
Qed.

Lemma append_eq_nil a b : a +:+ b = "" → a = "".
Proof. by destruct a. Qed.

Lemma digits_dot rest : digits (String "." rest) = ("", String "." rest).
Proof. reflexivity. Qed.

Lemma dot_sound s rest : dot s = Some rest → s = String "." rest.
Proof.
  destruct s as [|c s]; [done|]. simpl. case_bool_decide; [|done].
  by intros [= <-]; subst.
Qed.

Lemma semver_here_sound s v :
  semver_here s = Some v → ∃ post, s = v +:+ post ∧ semver v.
Proof.
  unfold semver_here.
  destruct (digits s) as [a s1] eqn:Ha.
  case_bool_decide as Hane; [done|].
  destruct (dot s1) as [s2|] eqn:Hdot1; [|done].
  apply dot_sound in Hdot1 as ->.
  destruct (digits s2) as [b s3] eqn:Hb.
  case_bool_decide as Hbne; [done|].
  destruct (dot s3) as [s4|] eqn:Hdot2; [|done].
  apply dot_sound in Hdot2 as ->.
  destruct (digits s4) as [c post] eqn:Hc.
  simpl. case_bool_decide as Hcne; [done|].
  intros [= <-].
  apply digits_sound in Ha as [-> Hda], Hb as [-> Hdb], Hc as [-> Hdc].
  exists post. split.
  - rewrite !append_assoc. done.
  - exists a, b, c. done.
Qed.

Lemma semver_here_complete v post : semver v → is_Some (semver_here (v +:+ post)).
Proof.
  intros (a & b & c & -> & Ha & Hb & Hc & Hda & Hdb & Hdc).
  unfold semver_here. rewrite !append_assoc.
  rewrite (digits_app a) by done. rewrite append_cons, digits_dot.
  cbn [fst snd dot]. rewrite (bool_decide_eq_true_2 ("."%char = "."%char)) by done.
  replace (a +:+ "") with a by (clear; induction a; [done|]; rewrite append_cons; congruence).
  rewrite bool_decide_eq_false_2 by done.
  rewrite append_nil_l.
  rewrite (digits_app b) by done. rewrite append_cons, digits_dot.
  cbn [fst snd dot]. rewrite (bool_decide_eq_true_2 ("."%char = "."%char)) by done.
  replace (b +:+ "") with b by (clear; induction b; [done|]; rewrite append_cons; congruence).
  rewrite bool_decide_eq_false_2 by done.
  rewrite append_nil_l.
  rewrite (digits_app c) by done.
  rewrite bool_decide_eq_false_2; [by eexists|].
  intros H%append_eq_nil. done.
Qed.

Lemma versionMatch_sound key v :
  versionMatch key = Some v → ∃ pre post, key = pre +:+ v +:+ post ∧ semver v.
Proof.
  induction key as [|x key IH].
  - done.
  - cbn [versionMatch]. destruct (semver_here (String x key)) eqn:Hh.
    + intros [= ->]. apply semver_here_sound in Hh as (post & -> & Hv).
      exists "", post. done.
    + intros (pre & post & -> & Hv)%IH.
      exists (String x pre), post. done.
Qed.

Lemma versionMatch_complete key : has_semver key → is_Some (versionMatch key).
Proof.
  intros (pre & v & post & -> & Hv). induction pre as [|x pre IH].
  - rewrite append_nil_l.
    destruct (semver_here_complete v post Hv) as [w Hw].
    destruct (v +:+ post); cbn [versionMatch]; rewrite Hw; by eexists.
  - rewrite append_cons. cbn [versionMatch].
    destruct (semver_here _); [by eexists|done].
Qed.

(** C8, as the route is written.  The route answers with the first object
    of the listing that is not a folder, in listing order: 404 when there is
    none, 404 when that object's key holds no digits.digits.digits text,
    and otherwise 200 with such a text taken from the key and the public URL
    of that same object; 500 when the listing fails. *)
Theorem firmware_observer_first bucket :
  firmware_observer bucket None = (500%Z, error_body "Failed to fetch firmware")
  ∧ ∀ Contents,
      match filter (λ item, endsWith_slash (Key item) = false)
              (default [] Contents) with
      | [] =>
          firmware_observer bucket (Some Contents)
          = (404%Z, error_body "No firmware found!")
      | file :: _ =>
          (¬ has_semver (Key file) →
             firmware_observer bucket (Some Contents)
             = (404%Z, error_body "No version found in filename!"))
          ∧ (has_semver (Key file) →
               ∃ version pre post,
                 semver version
                 ∧ Key file = pre +:+ version +:+ post
                 ∧ firmware_observer bucket (Some Contents)
                   = (200%Z,
                      firmware_body version
                        ("https://" +:+ bucket
                         +:+ ".fra1.digitaloceanspaces.com/" +:+ Key file)))
      end.
Proof.
  split; [done|]. intros Contents. unfold firmware_observer.
  destruct (filter _ _) as [|file rest]; [done|]. split.
  - intros Hno. destruct (versionMatch (Key file)) as [v|] eqn:Hv; [|done].
    destruct Hno. apply versionMatch_sound in Hv as (pre & post & ? & ?).
    by exists pre, v, post.
  - intros [v Hv]%versionMatch_complete. rewrite Hv.
    destruct (versionMatch_sound _ _ Hv) as (pre & post & Hkey & Hsem).
    exists v, pre, post. by repeat split.
Qed.

Lemma firmware_observer_first_witness :
  has_semver "rootprivacy/firmware/observer/observer-1.0.0.bin"
  ∧ ∃ version pre post,
      semver version
      ∧ "rootprivacy/firmware/observer/observer-1.0.0.bin"
        = pre +:+ version +:+ post
      ∧ firmware_observer "relay" (Some (Some sample_listing))
        = (200%Z,
           firmware_body version
             ("https://" +:+ "relay" +:+ ".fra1.digitaloceanspaces.com/"
              +:+ "rootprivacy/firmware/observer/observer-1.0.0.bin")).
Proof.
  assert (H : has_semver "rootprivacy/firmware/observer/observer-1.0.0.bin").
  { exists "rootprivacy/firmware/observer/observer-", "1.0.0", ".bin".
    split; [reflexivity|]. exists "1", "0", "0". by repeat split. }
  split; [exact H|].
  exact (proj2 (proj2 (firmware_observer_first "relay")
                  (Some sample_listing)) H).
Defined.

(** C8, as the claim states it, fails on a listing whose first object is
    not the most recent one: the reply carries the older build, not the
    newest object. *)
Lemma firmware_observer_not_newest :
  firmware_observer "relay" (Some (Some sample_listing))
  = (200%Z,
     firmware_body "1.0.0"
       "https://relay.fra1.digitaloceanspaces.com/rootprivacy/firmware/observer/observer-1.0.0.bin")
  ∧ ∀ f, newest sample_listing f →
         Key f = "rootprivacy/firmware/observer/observer-1.0.1.bin"
         ∧ ∀ version,
             (firmware_observer "relay" (Some (Some sample_listing))).2
             ≠ firmware_body version (getPublicObjectURL "relay" (Key f)).
Proof.
  split; [reflexivity|]. intros f [Hin Hmax].
  assert (Hf : Key f = "rootprivacy/firmware/observer/observer-1.0.1.bin").
  { specialize (Hmax (mkS3Object
      "rootprivacy/firmware/observer/observer-1.0.1.bin" 200)).
    unfold sample_listing in Hin, Hmax.
    rewrite !elem_of_cons in Hin.
    destruct Hin as [->|[->|[->|Hin]]]; [| |done|by inversion Hin];
      exfalso; simpl in Hmax;
      (assert (200 ≤ 100)%Z by (apply Hmax; set_solver) ||
       assert (200 ≤ 50)%Z by (apply Hmax; set_solver)); lia. }
  split; [exact Hf|]. intros version. rewrite Hf. by vm_compute.
Qed.

(** ** The router *)

Section router.
Context `{JSON}.

Lemma relay_to_recipients s message ids :
  ids ≫= relay_to s message
  = map (λ t, ws_send t (JSON_stringify message)) (recipients s ids).
Proof.
  unfold recipients. induction ids as [|id ids IH]; [done|].
  cbn [mbind list_bind]. rewrite map_app, <- IH. f_equal.
  unfold relay_to. destruct (clients s !! id) as [t|]; [|done].
  destruct (heap s !! t) as [w|]; [|done]. by case_bool_decide.
Qed.

Lemma route_valid s msg message ns X :
  JSON_parse msg = Some message →
  member message "target" = inr (Some (JSString (target_of ns))) →
  member message (field_of ns) = inr (Some (JSString X)) →
  X ≠ "" →
  route s msg
  = inr (map (λ t, ws_send t (JSON_stringify message))
           (recipients s (default [] (registry_of ns s !! X)))).
Proof.
  intros Hparse Htarget Hid HX. unfold route. rewrite Hparse.
  simpl. rewrite Htarget.
  destruct ns; simpl in *; rewrite Hid; simpl;
    rewrite bool_decide_eq_false_2 by done; simpl;
    by rewrite relay_to_recipients.
Qed.

Lemma route_malformed s msg : malformed msg → ∃ error, route s msg = inl error.
Proof.
  intros [Hparse|message Hparse Hd Hp|message ns id Hparse Htarget Hid Hfalsy];
    unfold route; rewrite Hparse; simpl.
  - eexists; reflexivity.
  - destruct (member message "target") as [e|target]; simpl;
      [eexists; reflexivity|].
    destruct target as [[| | |t| |]|]; simpl; try (eexists; reflexivity).
    assert (Ht : t ∉ ["device"; "product"]).
    { intros Ht. apply elem_of_cons in Ht as [->|Ht]; [done|].
      apply elem_of_cons in Ht as [->|Ht]; [done|]. by inversion Ht. }
    rewrite (bool_decide_eq_false_2 _ Ht). simpl. eexists; reflexivity.
  - rewrite Htarget.
    destruct ns; simpl in *; rewrite Hid; simpl; rewrite Hfalsy;
      eexists; reflexivity.
Qed.
End router.

(** ** The message listener *)

Lemma count_message_static now ws :
  clientId (count_message now ws) = clientId ws
  ∧ deviceId (count_message now ws) = deviceId ws
  ∧ productId (count_message now ws) = productId ws
  ∧ listeners (count_message now ws) = listeners ws
  ∧ readyState (count_message now ws) = readyState ws
  ∧ isAlive (count_message now ws) = isAlive ws
  ∧ isTerminating (count_message now ws) = isTerminating ws.
Proof. unfold count_message. by destruct (_ >? _)%Z. Qed.

Lemma recipients_store s r ws ws' ids :
  heap s !! r = Some ws → readyState ws' = readyState ws →
  recipients (store r ws' s) ids = recipients s ids.
Proof.
  intros Hr Hrs. unfold recipients. induction ids as [|id ids IH]; [done|].
  cbn [mbind list_bind]. rewrite IH. f_equal.
  cbn [store set_heap clients heap].
  destruct (clients s !! id) as [t|]; [|done].
  destruct (decide (t = r)) as [->|Hne].
  - by rewrite lookup_insert_eq, Hr, Hrs.
  - by rewrite lookup_insert_ne.
Qed.

Section listener.
Context `{JSON}.

Lemma on_message_accepted s r ws msg now :
  heap s !! r = Some ws → listeners ws = true →
  (messageCount (count_message now ws) ≤ 25)%Z →
  on_message r msg now s
  = (store r (count_message now ws) s,
     try_route (store r (count_message now ws) s) msg).
Proof.
  intros Hr Hl Hcount. unfold on_message. rewrite Hr, Hl.
  by destruct (Z.gtb_spec (messageCount (count_message now ws)) 25); [lia|].
Qed.

(** C7.  A frame that is not JSON, or whose [target] is neither "device"
    nor "product", or whose id field for the target is absent or empty, once
    past the rate limiter, is dropped: the listener only logs the error,
    sends nothing to any socket (the sender included), closes nothing, and
    leaves the Connection Table, both registries, [wss.clients] and the
    [readyState] of every socket as they were. *)
Theorem malformed_dropped s r ws msg now :
  heap s !! r = Some ws → listeners ws = true →
  (messageCount (count_message now ws) ≤ 25)%Z →
  malformed msg →
  (∃ error,
     (on_message r msg now s).2
     = [console_error "Error occured in WebSocket message callback:"
          (Some error)])
  ∧ (∀ e, e ∈ (on_message r msg now s).2 → is_send e = false)
  ∧ clients (on_message r msg now s).1 = clients s
  ∧ deviceIdClients (on_message r msg now s).1 = deviceIdClients s
  ∧ productIdClients (on_message r msg now s).1 = productIdClients s
  ∧ wss_clients (on_message r msg now s).1 = wss_clients s
  ∧ (∀ t w, heap s !! t = Some w →
       ∃ w', heap (on_message r msg now s).1 !! t = Some w'
             ∧ readyState w' = readyState w).
Proof.
  intros Hr Hl Hcount Hbad.
  rewrite (on_message_accepted s r ws msg now Hr Hl Hcount).
  unfold try_route.
  destruct (route_malformed (store r (count_message now ws) s) msg Hbad)
    as [error ->].
  cbn [fst snd store set_heap clients deviceIdClients productIdClients
       wss_clients heap].
  split; [by eexists|]. split.
  { intros e He. apply list_elem_of_singleton in He as ->. done. }
  repeat split. intros t w Ht.
  destruct (decide (t = r)) as [->|Hne].
  - rewrite lookup_insert_eq. eexists. split; [done|].
    rewrite Hr in Ht. injection Ht as <-. apply count_message_static.
  - rewrite lookup_insert_ne by done. eauto.
Qed.

End listener.

Lemma malformed_dropped_witness :
  (@on_message sample_JSON 0 "lamp on" 5 sample_relay).2
  = [console_error "Error occured in WebSocket message callback:"
       (Some SyntaxError)]
  ∧ (@on_message sample_JSON 0 (sample_stringify to_nobody) 5 sample_relay).2
    = [console_error "Error occured in WebSocket message callback:"
         (Some (Error "Message target is invalid!"))]
  ∧ (@on_message sample_JSON 0 (sample_stringify no_device_id) 5
       sample_relay).2
    = [console_error "Error occured in WebSocket message callback:"
         (Some (Error "Message lacks device ID!"))]
  ∧ deviceIdClients (@on_message sample_JSON 0 "lamp on" 5 sample_relay).1
    = deviceIdClients sample_relay
  ∧ clients
      (@on_message sample_JSON 0 (sample_stringify to_nobody) 5
         sample_relay).1
    = clients sample_relay
  ∧ productIdClients
      (@on_message sample_JSON 0 (sample_stringify no_device_id) 5
         sample_relay).1
    = productIdClients sample_relay.
Proof.
  pose proof (λ msg, @malformed_dropped sample_JSON sample_relay 0
                (mkWebSocket "uuid-a" true false 0 0 (Some "lamp") None OPEN
                   true)
                msg 5 eq_refl eq_refl) as Hdrop.
  assert (Hcount : (messageCount
                      (count_message 5
                         (mkWebSocket "uuid-a" true false 0 0 (Some "lamp")
                            None OPEN true)) ≤ 25)%Z)
    by (vm_compute; discriminate).
  destruct (Hdrop "lamp on" Hcount) as (_ & _ & _ & Hdev & _);
    [by apply not_json|].
  destruct (Hdrop (sample_stringify to_nobody) Hcount) as (_ & _ & Hcl & _).
  { apply (@bad_target sample_JSON _ to_nobody);
      [reflexivity|discriminate|discriminate]. }
  destruct (Hdrop (sample_stringify no_device_id) Hcount)
    as (_ & _ & _ & _ & Hprod & _).
  { apply (@no_id sample_JSON _ no_device_id device (Some (JSString "")));
      reflexivity. }
  split; [by vm_compute|]. split; [by vm_compute|]. split; [by vm_compute|].
  split; [exact Hdev|]. split; [exact Hcl|exact Hprod].
Defined.

(** ** Admission *)




(** ** Well-formedness is an invariant *)

Lemma same_binding_refl ws : same_binding ws ws.
Proof. by repeat split. Qed.

Lemma same_binding_trans a b c :
  same_binding a b → same_binding b c → same_binding a c.
Proof.
  intros (? & ? & ? & ? & ?) (? & ? & ? & ? & ?).
  repeat split; try congruence; tauto.
Qed.

Lemma same_binding_registered a b :
  same_binding a b → registered a ↔ registered b.
Proof.
  intros (_ & _ & _ & Hl & Hc). unfold registered. rewrite Hl. tauto.
Qed.

Lemma same_bindings_refl h : same_bindings h h.
Proof. intros r. destruct (h !! r); [apply same_binding_refl|done]. Qed.

Lemma same_bindings_trans h1 h2 h3 :
  same_bindings h1 h2 → same_bindings h2 h3 → same_bindings h1 h3.
Proof.
  intros H12 H23 r. specialize (H12 r). specialize (H23 r).
  destruct (h1 !! r), (h2 !! r), (h3 !! r); try done.
  by eapply same_binding_trans.
Qed.

Lemma same_bindings_insert h r ws ws' :
  h !! r = Some ws → same_binding ws ws' → same_bindings h (<[r := ws']> h).
Proof.
  intros Hr Hsame r'. destruct (decide (r' = r)) as [->|Hne].
  - by rewrite lookup_insert_eq, Hr.
  - rewrite lookup_insert_ne by done.
    destruct (h !! r'); [apply same_binding_refl|done].
Qed.

Lemma same_bindings_lookup h h' r ws' :
  same_bindings h h' → h' !! r = Some ws' →
  ∃ ws, h !! r = Some ws ∧ same_binding ws ws'.
Proof.
  intros Hsame Hr. specialize (Hsame r). rewrite Hr in Hsame.
  destruct (h !! r) as [ws|]; [eauto|done].
Qed.

Lemma same_bindings_lookup_l h h' r ws :
  same_bindings h h' → h !! r = Some ws →
  ∃ ws', h' !! r = Some ws' ∧ same_binding ws ws'.
Proof.
  intros Hsame Hr. specialize (Hsame r). rewrite Hr in Hsame.
  destruct (h' !! r) as [ws'|]; [eauto|done].
Qed.

Lemma registry_ok_same_bindings key h h' m :
  (∀ a b, same_binding a b → key a = key b) →
  same_bindings h h' → registry_ok key h m → registry_ok key h' m.
Proof.
  intros Hkey Hsame [Hin Hout]. split.
  - intros k ids Hk. destruct (Hin k ids Hk) as [Hne Hids].
    split; [done|]. intros id Hid.
    destruct (Hids id Hid) as (r & ws & Hr & Hcid & Hkws & Hreg).
    destruct (same_bindings_lookup_l _ _ _ _ Hsame Hr) as (ws' & Hr' & Hb).
    exists r, ws'. split; [done|]. split; [by destruct Hb as [<- _]|].
    split; [by rewrite <- (Hkey _ _ Hb)|].
    by apply (same_binding_registered _ _ Hb).
  - intros r ws' k Hr' Hreg Hk.
    destruct (same_bindings_lookup _ _ _ _ Hsame Hr') as (ws & Hr & Hb).
    destruct (Hout r ws k Hr) as [Hnz (ids & Hm & Hid)].
    + by apply (same_binding_registered _ _ Hb).
    + by rewrite (Hkey _ _ Hb).
    + split; [done|]. exists ids. split; [done|]. by destruct Hb as [<- _].
Qed.

Lemma wf_same_bindings s s' :
  wf s → same_bindings (heap s) (heap s') →
  wss_clients s' = wss_clients s → clients s' = clients s →
  deviceIdClients s' = deviceIdClients s →
  productIdClients s' = productIdClients s →
  wf s'.
Proof.
  intros [Hnd Hlive Huuid Hcl Hdev Hprod Hrole] Hsame Hw Hc Hd Hp.
  split; rewrite ?Hw, ?Hc, ?Hd, ?Hp.
  - done.
  - intros r. rewrite Hlive. split.
    + intros (ws & Hr & Hopen).
      destruct (same_bindings_lookup_l _ _ _ _ Hsame Hr) as (ws' & Hr' & Hb).
      exists ws'. split; [done|]. destruct Hb as (_ & _ & _ & _ & Hcl').
      tauto.
    + intros (ws' & Hr' & Hopen).
      destruct (same_bindings_lookup _ _ _ _ Hsame Hr') as (ws & Hr & Hb).
      exists ws. split; [done|]. destruct Hb as (_ & _ & _ & _ & Hcl').
      tauto.
  - intros r1 r2 w1 w2 H1 H2 Heq.
    destruct (same_bindings_lookup _ _ _ _ Hsame H1) as (a1 & Ha1 & Hb1).
    destruct (same_bindings_lookup _ _ _ _ Hsame H2) as (a2 & Ha2 & Hb2).
    apply (Huuid r1 r2 a1 a2 Ha1 Ha2).
    destruct Hb1 as [-> _], Hb2 as [-> _]. done.
  - intros id r. rewrite Hcl. split.
    + intros (ws & Hr & Hid & Hreg).
      destruct (same_bindings_lookup_l _ _ _ _ Hsame Hr) as (ws' & Hr' & Hb).
      exists ws'. split; [done|]. split; [by destruct Hb as [<- _]|].
      by apply (same_binding_registered _ _ Hb).
    + intros (ws' & Hr' & Hid & Hreg).
      destruct (same_bindings_lookup _ _ _ _ Hsame Hr') as (ws & Hr & Hb).
      exists ws. split; [done|]. split; [by destruct Hb as [-> _]|].
      by apply (same_binding_registered _ _ Hb).
  - apply (registry_ok_same_bindings deviceId (heap s)); [|done|done].
    by intros a b (_ & ? & _).
  - apply (registry_ok_same_bindings productId (heap s)); [|done|done].
    by intros a b (_ & _ & ? & _).
  - intros r ws' Hr'.
    destruct (same_bindings_lookup _ _ _ _ Hsame Hr') as (ws & Hr & Hb).
    destruct Hb as (_ & <- & <- & _). eauto.
Qed.

Lemma wf_initial : wf initial.
Proof.
  split; simpl.
  - constructor.
  - intros r. split; [by inversion 1|]. by intros (ws & ? & _).
  - by intros r1 r2 w1 w2 ?.
  - intros id r. split; [done|]. by intros (ws & ? & _).
  - split; [by intros k ids ?|by intros r ws k ?].
  - split; [by intros k ids ?|by intros r ws k ?].
  - by intros r ws ?.
Qed.

Lemma same_registry_refl s : same_registry s s.
Proof. split; [apply same_bindings_refl|done]. Qed.

Lemma same_registry_trans s1 s2 s3 :
  same_registry s1 s2 → same_registry s2 s3 → same_registry s1 s3.
Proof.
  intros (Hh & Hw & Hc & Hd & Hp) (Hh' & Hw' & Hc' & Hd' & Hp').
  split; [by eapply same_bindings_trans|].
  repeat split; congruence.
Qed.

Lemma same_registry_store s r ws ws' :
  heap s !! r = Some ws → same_binding ws ws' →
  same_registry s (store r ws' s).
Proof.
  intros Hr Hb. split; [|done]. by eapply same_bindings_insert.
Qed.

Lemma wf_same_registry s s' : wf s → same_registry s s' → wf s'.
Proof.
  intros Hwf (Hh & Hw & Hc & Hd & Hp). by eapply wf_same_bindings.
Qed.

Lemma same_binding_count_message now ws :
  same_binding ws (count_message now ws).
Proof.
  destruct (count_message_static now ws) as (? & ? & ? & ? & Hrs & _).
  unfold same_binding. by rewrite Hrs.
Qed.

Lemma same_binding_close ws : same_binding ws (WebSocket_close ws).
Proof.
  unfold WebSocket_close. destruct (readyState ws) eqn:Hrs;
    repeat split; simpl; try done; congruence.
Qed.

Lemma same_binding_terminate ws : same_binding ws (WebSocket_terminate ws).
Proof.
  unfold WebSocket_terminate. destruct (readyState ws) eqn:Hrs;
    repeat split; simpl; try done; congruence.
Qed.

Lemma on_message_same `{JSON} r msg now s :
  same_registry s (on_message r msg now s).1.
Proof.
  unfold on_message. destruct (heap s !! r) as [ws|] eqn:Hr;
    [|apply same_registry_refl].
  destruct (listeners ws); [|apply same_registry_refl].
  pose proof (same_binding_count_message now ws) as Hcount.
  destruct (_ >? _)%Z.
  - destruct (isTerminating _); cbn [negb fst];
      apply (same_registry_store s r ws); try done.
    eapply same_binding_trans; [exact Hcount|].
    eapply same_binding_trans; [|apply same_binding_close].
    by repeat split.
  - by apply (same_registry_store s r ws).
Qed.

Lemma on_pong_same r s : same_registry s (on_pong r s).1.
Proof.
  unfold on_pong. destruct (heap s !! r) as [ws|] eqn:Hr;
    [|apply same_registry_refl].
  destruct (listeners ws); [|apply same_registry_refl].
  by apply (same_registry_store s r ws).
Qed.

Lemma on_error_same r error s : same_registry s (on_error r error s).1.
Proof.
  unfold on_error. destruct (heap s !! r) as [ws|];
    [|apply same_registry_refl].
  destruct (listeners ws); apply same_registry_refl.
Qed.

Lemma heartbeat_one_same r s : same_registry s (heartbeat_one r s).1.
Proof.
  unfold heartbeat_one. destruct (heap s !! r) as [ws|] eqn:Hr;
    [|apply same_registry_refl].
  destruct (isAlive ws); cbn [negb fst];
    apply (same_registry_store s r ws); try done.
  apply same_binding_terminate.
Qed.

Lemma heartbeat_each_same rs s : same_registry s (heartbeat_each rs s).1.
Proof.
  revert s. induction rs as [|r rs IH]; intros s; [apply same_registry_refl|].
  cbn [heartbeat_each].
  pose proof (heartbeat_one_same r s) as H1.
  destruct (heartbeat_one r s) as [s1 fx1].
  pose proof (IH s1) as H2.
  destruct (heartbeat_each rs s1) as [s2 fx2].
  by eapply same_registry_trans.
Qed.

Lemma heartbeat_same s : same_registry s (heartbeat s).1.
Proof. apply heartbeat_each_same. Qed.

Section registry.
Context (key : WebSocket → option string).
Context (h : gmap nat WebSocket) (m : gmap string (list string)).
Context (r : nat).

Lemma registry_ok_fresh ws :
  h !! r = None → (¬ registered ws ∨ key ws = None) →
  registry_ok key h m → registry_ok key (<[r := ws]> h) m.
Proof.
  intros Hr Hws [Hin Hout]. split.
  - intros k ids Hk. destruct (Hin k ids Hk) as [Hne Hids].
    split; [done|]. intros id Hid.
    destruct (Hids id Hid) as (r0 & ws0 & Hr0 & Hrest).
    exists r0, ws0. split; [|done].
    rewrite lookup_insert_ne; [done|]. intros ->. congruence.
  - intros r0 ws0 k Hr0 Hreg Hk.
    destruct (decide (r0 = r)) as [->|Hne].
    + rewrite lookup_insert_eq in Hr0. injection Hr0 as <-.
      destruct Hws; [done|congruence].
    + rewrite lookup_insert_ne in Hr0 by done. by eapply Hout.
Qed.

Lemma registry_ok_register ws d :
  h !! r = None → key ws = Some d → d ≠ "" → registered ws →
  registry_ok key h m →
  registry_ok key (<[r := ws]> h)
    (<[d := default [] (m !! d) ++ [clientId ws]]> m).
Proof.
  intros Hr Hd Hnz Hreg [Hin Hout]. split.
  - intros k ids Hk. destruct (decide (k = d)) as [->|Hne].
    + rewrite lookup_insert_eq in Hk. injection Hk as <-.
      split; [by destruct (default [] (m !! d))|].
      intros id [Hid|Hid%list_elem_of_singleton]%elem_of_app.
      * destruct (m !! d) as [old|] eqn:Hold; [|by inversion Hid].
        destruct (Hin d old Hold) as [_ Hids].
        destruct (Hids id Hid) as (r0 & ws0 & Hr0 & Hrest).
        exists r0, ws0. split; [|done].
        rewrite lookup_insert_ne; [done|]. intros ->. congruence.
      * subst id. exists r, ws. by rewrite lookup_insert_eq.
    + rewrite lookup_insert_ne in Hk by done.
      destruct (Hin k ids Hk) as [Hnil Hids]. split; [done|].
      intros id Hid. destruct (Hids id Hid) as (r0 & ws0 & Hr0 & Hrest).
      exists r0, ws0. split; [|done].
      rewrite lookup_insert_ne; [done|]. intros ->. congruence.
  - intros r0 ws0 k Hr0 Hreg0 Hk.
    destruct (decide (r0 = r)) as [->|Hne].
    + rewrite lookup_insert_eq in Hr0. injection Hr0 as <-.
      assert (k = d) as -> by congruence. split; [done|].
      eexists. split; [apply lookup_insert_eq|].
      apply elem_of_app. right. by apply list_elem_of_singleton.
    + rewrite lookup_insert_ne in Hr0 by done.
      destruct (Hout r0 ws0 k Hr0 Hreg0 Hk) as [Hknz (ids & Hm & Hid)].
      split; [done|]. destruct (decide (k = d)) as [->|Hkd].
      * eexists. split; [apply lookup_insert_eq|].
        rewrite Hm. apply elem_of_app. by left.
      * exists ids. by rewrite lookup_insert_ne.
Qed.

Lemma registry_ok_unregister ws ws' :
  (∀ r1 r2 w1 w2, h !! r1 = Some w1 → h !! r2 = Some w2 →
                  clientId w1 = clientId w2 → r1 = r2) →
  h !! r = Some ws → registered ws → ¬ registered ws' →
  registry_ok key h m →
  registry_ok key (<[r := ws']> h) (unregister (key ws) (clientId ws) m).
Proof.
  intros Huuid Hr Hreg Hnot [Hin Hout].
  assert (Hkeynz : ∀ k, key ws = Some k → k ≠ "")
    by (intros k Hk; by destruct (Hout r ws k Hr Hreg Hk)).
  split.
  - intros k ids Hk.
    assert (∃ old, m !! k = Some old ∧ ids ≠ []
                   ∧ ∀ id, id ∈ ids → id ∈ old ∧ id ≠ clientId ws)
      as (old & Hold & Hnil & Hsub).
    { destruct (decide (key ws = Some k)) as [Hkey|Hkey].
      - pose proof (unregister_not_elem _ _ _ _ _ Hk Hkey (Hkeynz k Hkey))
          as Hnotin.
        rewrite Hkey, unregister_lookup_own in Hk by by apply Hkeynz.
        destruct (m !! k) as [old|] eqn:Hold; [|done]. simpl in Hk.
        exists old. split; [done|].
        destruct (filter _ old) as [|e rest] eqn:Hf; [done|].
        injection Hk as <-. split; [done|]. rewrite <- Hf.
        intros id [Hne Hid]%list_elem_of_filter. done.
      - rewrite unregister_lookup_other in Hk by done.
        exists ids. split; [done|]. destruct (Hin k ids Hk) as [Hnil Hids].
        split; [done|]. intros id Hid. split; [done|]. intros ->.
        destruct (Hids _ Hid) as (r0 & ws0 & Hr0 & Hcid & Hk0 & _).
        assert (r0 = r) as -> by by eapply Huuid.
        congruence. }
    split; [done|]. intros id Hid. destruct (Hsub id Hid) as [Hidold Hne].
    destruct (Hin k old Hold) as [_ Hids].
    destruct (Hids id Hidold) as (r0 & ws0 & Hr0 & Hcid & Hrest).
    exists r0, ws0. split; [|done].
    rewrite lookup_insert_ne; [done|]. intros ->. congruence.
  - intros r0 ws0 k Hr0 Hreg0 Hk.
    destruct (decide (r0 = r)) as [->|Hne].
    { rewrite lookup_insert_eq in Hr0. by injection Hr0 as <-. }
    rewrite lookup_insert_ne in Hr0 by done.
    destruct (Hout r0 ws0 k Hr0 Hreg0 Hk) as [Hknz (ids & Hm & Hid)].
    split; [done|]. eapply unregister_keeps; [done|done|].
    intros Heq. apply Hne. by eapply Huuid.
Qed.

Lemma registry_ok_overwrite_unregistered ws ws' :
  h !! r = Some ws → ¬ registered ws → ¬ registered ws' →
  registry_ok key h m → registry_ok key (<[r := ws']> h) m.
Proof.
  intros Hr Hnot Hnot' [Hin Hout]. split.
  - intros k ids Hk. destruct (Hin k ids Hk) as [Hnil Hids].
    split; [done|]. intros id Hid.
    destruct (Hids id Hid) as (r0 & ws0 & Hr0 & Hcid & Hk0 & Hreg0).
    exists r0, ws0. split; [|done].
    rewrite lookup_insert_ne; [done|]. intros ->. congruence.
  - intros r0 ws0 k Hr0 Hreg0 Hk.
    destruct (decide (r0 = r)) as [->|Hne].
    { rewrite lookup_insert_eq in Hr0. by injection Hr0 as <-. }
    rewrite lookup_insert_ne in Hr0 by done. by eapply Hout.
Qed.

End registry.

Lemma wf_new_socket s s' r ws :
  wf s → heap s !! r = None →
  map_Forall (λ _ w, clientId w ≠ clientId ws) (heap s) →
  readyState ws ≠ CLOSED →
  (deviceId ws = None ∨ productId ws = None) →
  heap s' = <[r := ws]> (heap s) →
  wss_clients s' = wss_clients s ++ [r] →
  clients s' = (if listeners ws then <[clientId ws := r]> (clients s)
                else clients s) →
  registry_ok deviceId (heap s') (deviceIdClients s') →
  registry_ok productId (heap s') (productIdClients s') →
  wf s'.
Proof.
  intros [Hnd Hlive Huuid Hcl Hdev Hprod Hrole] Hr Hfresh Hopen Hone
    Hheap Hwss Hclients Hdev' Hprod'.
  assert (Hnotin : r ∉ wss_clients s).
  { intros (w & Hw & _)%Hlive. congruence. }
  split; [| | | |done|done|]; rewrite ?Hheap, ?Hwss.
  - apply NoDup_app. split; [done|]. split; [|apply NoDup_singleton].
    intros x Hx ->%list_elem_of_singleton. done.
  - intros r0. rewrite elem_of_app, list_elem_of_singleton, Hlive.
    destruct (decide (r0 = r)) as [->|Hne].
    + rewrite lookup_insert_eq. split; [by eauto|]. by right.
    + rewrite lookup_insert_ne by done. split; [|by left].
      by intros [?|?].
  - intros r1 r2 w1 w2 H1 H2 Heq.
    destruct (decide (r1 = r)) as [->|Hne1], (decide (r2 = r)) as [->|Hne2];
      try done.
    + rewrite lookup_insert_eq in H1. injection H1 as <-.
      rewrite lookup_insert_ne in H2 by done.
      by destruct (Hfresh r2 w2 H2).
    + rewrite lookup_insert_eq in H2. injection H2 as <-.
      rewrite lookup_insert_ne in H1 by done.
      by destruct (Hfresh r1 w1 H1).
    + rewrite lookup_insert_ne in H1, H2 by done. by eapply Huuid.
  - intros id r0. rewrite Hclients.
    destruct (listeners ws) eqn:Hl.
    + destruct (decide (r0 = r)) as [->|Hne].
      * rewrite lookup_insert_eq. split.
        -- destruct (decide (id = clientId ws)) as [->|Hid].
           ++ intros _. by exists ws.
           ++ rewrite lookup_insert_ne by done.
              intros (w & Hw & _)%Hcl. congruence.
        -- intros (w & [= <-] & <- & _). by rewrite lookup_insert_eq.
      * rewrite (lookup_insert_ne (heap s)) by done. split.
        -- destruct (decide (id = clientId ws)) as [->|Hid].
           ++ rewrite lookup_insert_eq. intros [= ?]. congruence.
           ++ rewrite lookup_insert_ne by done. apply Hcl.
        -- intros (w & Hw & <- & Hreg).
           rewrite lookup_insert_ne by (intros Heq; by apply (Hfresh r0 w Hw)).
           apply Hcl. by exists w.
    + rewrite Hcl. destruct (decide (r0 = r)) as [->|Hne].
      * rewrite lookup_insert_eq, Hr. split; [by intros (w & ? & _)|].
        intros (w & [= <-] & _ & Hreg & _). congruence.
      * by rewrite lookup_insert_ne.
  - intros r0 w. destruct (decide (r0 = r)) as [->|Hne].
    + rewrite lookup_insert_eq. by intros [= <-].
    + rewrite lookup_insert_ne by done. apply Hrole.
Qed.

Ltac new_socket_fields :=
  cbn [store set_heap set_wss_clients set_clients set_deviceIdClients
       set_productIdClients heap wss_clients clients deviceIdClients
       productIdClients];
  rewrite ?insert_insert_eq.

Lemma wf_on_connection r uuid now device_id product_id s :
  wf s → allowed s (Connection r uuid now device_id product_id) →
  wf (on_connection r uuid now device_id product_id s).1.
Proof.
  intros Hwf [Hr Hfresh].
  pose proof (wf_devices s Hwf) as Hdev.
  pose proof (wf_products s Hwf) as Hprod.
  unfold on_connection.
  destruct (truthy_str device_id) eqn:Hd, (truthy_str product_id) eqn:Hp;
    cbn [negb andb fst].
  - apply (wf_new_socket s _ r
             (WebSocket_close
                (mkWebSocket uuid true false 0 now None None OPEN false))
             Hwf Hr Hfresh); new_socket_fields; try done.
    + by left.
    + apply registry_ok_fresh; [done| |done]. left. by intros [? _].
    + apply registry_ok_fresh; [done| |done]. left. by intros [? _].
  - destruct device_id as [d|]; [|done].
    assert (d ≠ "") by by apply truthy_str_Some.
    apply (wf_new_socket s _ r
             (mkWebSocket uuid true false 0 now (Some d) None OPEN true)
             Hwf Hr Hfresh); try done.
    + by right.
    + destruct product_id; new_socket_fields; by rewrite ?Hp.
    + by destruct product_id; new_socket_fields; rewrite ?Hp.
    + by destruct product_id; new_socket_fields; rewrite ?Hp.
    + destruct product_id; new_socket_fields; rewrite ?Hp;
        new_socket_fields; by apply (registry_ok_register deviceId).
    + destruct product_id; new_socket_fields; rewrite ?Hp;
        new_socket_fields; apply registry_ok_fresh; try done; by right.
  - destruct product_id as [p|]; [|done].
    assert (p ≠ "") by by apply truthy_str_Some.
    apply (wf_new_socket s _ r
             (mkWebSocket uuid true false 0 now None (Some p) OPEN true)
             Hwf Hr Hfresh); try done.
    + by left.
    + destruct device_id; new_socket_fields; by rewrite ?Hd.
    + by destruct device_id; new_socket_fields; rewrite ?Hd.
    + by destruct device_id; new_socket_fields; rewrite ?Hd.
    + destruct device_id; new_socket_fields; rewrite ?Hd;
        new_socket_fields; apply registry_ok_fresh; try done; by right.
    + destruct device_id; new_socket_fields; rewrite ?Hd;
        new_socket_fields; by apply (registry_ok_register productId).
  - apply (wf_new_socket s _ r
             (WebSocket_close
                (mkWebSocket uuid true false 0 now None None OPEN false))
             Hwf Hr Hfresh); new_socket_fields; try done.
    + by left.
    + apply registry_ok_fresh; [done| |done]. left. by intros [? _].
    + apply registry_ok_fresh; [done| |done]. left. by intros [? _].
Qed.

Lemma wf_on_close r s : wf s → allowed s (Close r) → wf (on_close r s).1.
Proof.
  intros Hwf Hin. pose proof Hwf as [Hnd Hlive Huuid Hcl Hdev Hprod Hrole].
  destruct (proj1 (Hlive r) Hin) as (ws & Hr & Hopen).
  rewrite (on_close_Some r s ws Hr). cbn [fst].
  set (ws' := set_readyState CLOSED ws).
  assert (Hnot' : ¬ registered ws') by by intros [_ ?].
  assert (Hheap : ∀ r0, r0 ≠ r → <[r := ws']> (heap s) !! r0 = heap s !! r0)
    by (intros; by apply lookup_insert_ne).
  assert (Hcommon :
    ∀ s', heap s' = <[r := ws']> (heap s) →
          wss_clients s' = filter (λ x, x ≠ r) (wss_clients s) →
          (∀ id r0, clients s' !! id = Some r0 ↔
                    ∃ w, heap s' !! r0 = Some w ∧ clientId w = id
                         ∧ registered w) →
          registry_ok deviceId (heap s') (deviceIdClients s') →
          registry_ok productId (heap s') (productIdClients s') →
          wf s').
  { intros s' Hh Hw Hc Hd Hp. split; [| | |done|done|done|];
      rewrite ?Hh, ?Hw.
    - by apply NoDup_filter.
    - intros r0. rewrite list_elem_of_filter, Hlive.
      destruct (decide (r0 = r)) as [->|Hne].
      + rewrite lookup_insert_eq. split; [by intros [? _]|].
        by intros (w & [= <-] & ?).
      + rewrite Hheap by done. tauto.
    - intros r1 r2 w1 w2 H1 H2 Heq.
      assert (∀ r0 w0, <[r := ws']> (heap s) !! r0 = Some w0 →
                ∃ w, heap s !! r0 = Some w ∧ clientId w = clientId w0)
        as Hback.
      { intros r0 w0. destruct (decide (r0 = r)) as [->|Hne].
        - rewrite lookup_insert_eq. intros [= <-]. by exists ws.
        - rewrite Hheap by done. eauto. }
      destruct (Hback _ _ H1) as (a1 & Ha1 & He1).
      destruct (Hback _ _ H2) as (a2 & Ha2 & He2).
      apply (Huuid r1 r2 a1 a2 Ha1 Ha2). congruence.
    - intros r0 w0. destruct (decide (r0 = r)) as [->|Hne].
      + rewrite lookup_insert_eq. intros [= <-]. by apply (Hrole r ws).
      + rewrite Hheap by done. apply Hrole. }
  destruct (listeners ws) eqn:Hl.
  - assert (Hreg : registered ws) by done.
    apply Hcommon; try done;
      cbn [close_listener set_deviceIdClients set_productIdClients
           set_clients set_wss_clients store set_heap heap clients
           deviceIdClients productIdClients].
    + intros id r0. rewrite lookup_delete. case_decide as Hid.
      * split; [done|]. subst id. intros (w & Hw & Hcid & Hregw).
        destruct (decide (r0 = r)) as [->|Hne].
        -- rewrite lookup_insert_eq in Hw. by injection Hw as <-.
        -- rewrite Hheap in Hw by done. destruct Hne.
           by apply (Huuid r0 r w ws).
      * rewrite Hcl. split.
        -- intros (w & Hw & Hcid & Hregw). exists w. split; [|done].
           rewrite Hheap; [done|]. intros ->. congruence.
        -- intros (w & Hw & Hcid & Hregw). exists w. split; [|done].
           destruct (decide (r0 = r)) as [->|Hne].
           ++ rewrite lookup_insert_eq in Hw. by injection Hw as <-.
           ++ by rewrite Hheap in Hw.
    + by apply registry_ok_unregister.
    + by apply registry_ok_unregister.
  - assert (Hnot : ¬ registered ws) by (intros [? _]; congruence).
    apply Hcommon; try done;
      cbn [set_wss_clients store set_heap heap clients deviceIdClients
           productIdClients].
    + intros id r0. rewrite Hcl. split.
      * intros (w & Hw & Hcid & Hregw). exists w. split; [|done].
        rewrite Hheap; [done|]. intros ->. congruence.
      * intros (w & Hw & Hcid & Hregw). exists w. split; [|done].
        destruct (decide (r0 = r)) as [->|Hne].
        -- rewrite lookup_insert_eq in Hw. by injection Hw as <-.
        -- by rewrite Hheap in Hw.
    + by apply (registry_ok_overwrite_unregistered _ _ _ _ ws).
    + by apply (registry_ok_overwrite_unregistered _ _ _ _ ws).
Qed.

Section reachability.
Context `{JSON}.

Lemma wf_step s e : wf s → allowed s e → wf (step e s).1.
Proof.
  intros Hwf Hok. destruct e; cbn [step].
  - by apply wf_on_connection.
  - eapply wf_same_registry; [done|apply on_message_same].
  - eapply wf_same_registry; [done|apply on_pong_same].
  - by apply wf_on_close.
  - eapply wf_same_registry; [done|apply on_error_same].
  - eapply wf_same_registry; [done|apply heartbeat_same].
Qed.

Lemma reachable_wf s : reachable s → wf s.
Proof.
  induction 1 as [|s e _ IH Hok]; [apply wf_initial|by apply wf_step].
Qed.

Lemma run_cons e es s :
  run (e :: es) s
  = ((run es (step e s).1).1, (step e s).2 ++ (run es (step e s).1).2).
Proof.
  cbn [run]. destruct (step e s) as [s1 fx1]. cbn [fst snd].
  by destruct (run es s1).
Qed.

Lemma reachable_run es s :
  reachable s → allowed_run es s → reachable (run es s).1.
Proof.
  revert s. induction es as [|e es IH]; intros s Hs Hok; [done|].
  destruct Hok as [He Hes]. rewrite run_cons. cbn [fst].
  apply IH; [by apply reachable_step|done].
Qed.

End reachability.

Lemma sample_relay_reachable : @reachable sample_JSON sample_relay.
Proof.
  apply reachable_run; [apply reachable_initial|].
  apply (bool_decide_unpack _). by vm_compute.
Qed.

(** ** Routing *)

Lemma elem_of_recipients s ids t :
  t ∈ recipients s ids ↔
  ∃ id w, id ∈ ids ∧ clients s !! id = Some t ∧ heap s !! t = Some w
          ∧ readyState w = OPEN.
Proof.
  unfold recipients. rewrite list_elem_of_bind. split.
  - intros (id & Ht & Hid). exists id.
    destruct (clients s !! id) as [t'|]; [|by inversion Ht].
    destruct (heap s !! t') as [w|] eqn:Hw; [|by inversion Ht].
    case_bool_decide; [|by inversion Ht].
    apply list_elem_of_singleton in Ht as ->. by exists w.
  - intros (id & w & Hid & Hc & Hw & Hopen). exists id. split; [|done].
    rewrite Hc, Hw, bool_decide_eq_true_2 by done.
    by apply list_elem_of_singleton.
Qed.

Lemma wf_registry ns s :
  wf s → registry_ok (bound_to ns) (heap s) (registry_of ns s).
Proof. intros Hwf. destruct ns; [apply wf_devices|apply wf_products]; done. Qed.

Lemma registry_of_store ns r ws s :
  registry_of ns (store r ws s) = registry_of ns s.
Proof. by destruct ns. Qed.

(** A recipient of a message for [X] is an open socket bound to [X]. *)
Lemma recipient_bound ns s X t :
  wf s → t ∈ recipients s (default [] (registry_of ns s !! X)) →
  ∃ w, heap s !! t = Some w ∧ readyState w = OPEN
       ∧ bound_to ns w = Some X
       ∧ clientId w ∈ default [] (registry_of ns s !! X).
Proof.
  intros Hwf (id & w & Hid & Hc & Hw & Hopen)%elem_of_recipients.
  exists w. split; [done|]. split; [done|].
  destruct (registry_of ns s !! X) as [ids|] eqn:Hids; [|by inversion Hid].
  destruct (wf_registry ns s Hwf) as [Hin _].
  destruct (Hin X ids Hids) as [_ Hmem].
  destruct (Hmem id Hid) as (r0 & w0 & Hr0 & Hcid & Hkey & _).
  destruct (proj1 (wf_clients s Hwf id t) Hc) as (w' & Hw' & Hcid' & _).
  assert (r0 = t) as -> by (eapply (wf_uuid s Hwf); [done|done|congruence]).
  assert (w0 = w) as -> by congruence.
  split; [done|]. simpl. by rewrite Hcid.
Qed.

(** An open registered socket bound to [X] is a recipient. *)
Lemma bound_recipient ns s X t w :
  wf s → heap s !! t = Some w → listeners w = true → readyState w = OPEN →
  bound_to ns w = Some X →
  t ∈ recipients s (default [] (registry_of ns s !! X)).
Proof.
  intros Hwf Hw Hl Hopen Hkey.
  assert (Hreg : registered w) by (split; [done|congruence]).
  destruct (wf_registry ns s Hwf) as [_ Hout].
  destruct (Hout t w X Hw Hreg Hkey) as [_ (ids & Hids & Hid)].
  apply elem_of_recipients. exists (clientId w), w.
  rewrite Hids. split; [done|]. split; [|done].
  apply (wf_clients s Hwf). by exists w.
Qed.

Section routing.
Context `{JSON}.

Lemma on_message_routed s r ws msg now message ns X :
  heap s !! r = Some ws → listeners ws = true →
  (messageCount (count_message now ws) ≤ 25)%Z →
  JSON_parse msg = Some message →
  member message "target" = inr (Some (JSString (target_of ns))) →
  member message (field_of ns) = inr (Some (JSString X)) →
  X ≠ "" →
  on_message r msg now s
  = (store r (count_message now ws) s,
     map (λ t, ws_send t (JSON_stringify message))
       (recipients s (default [] (registry_of ns s !! X)))).
Proof.
  intros Hr Hl Hcount Hparse Htarget Hid HX.
  rewrite (on_message_accepted s r ws msg now Hr Hl Hcount).
  unfold try_route.
  rewrite (route_valid _ msg message ns X Hparse Htarget Hid HX).
  rewrite registry_of_store, (recipients_store s r ws); [done|done|].
  apply count_message_static.
Qed.

(** C1.  In a reachable state, a valid message for identifier [X] of
    namespace [ns] that passes the rate limiter makes the listener send
    [JSON.stringify(message)], the same text each time, to exactly the
    sockets found through the ids of bucket [X] in the Connection Table that
    are open.  Every open registered connection bound to [X] in that
    namespace gets it; whoever gets anything gets that text and is an open
    connection bound to [X]; a connection bound to another identifier, or to
    none in that namespace, gets nothing. *)
Theorem routing_correct s r ws msg now message ns X :
  reachable s →
  heap s !! r = Some ws → listeners ws = true →
  (messageCount (count_message now ws) ≤ 25)%Z →
  JSON_parse msg = Some message →
  member message "target" = inr (Some (JSString (target_of ns))) →
  member message (field_of ns) = inr (Some (JSString X)) →
  X ≠ "" →
  let fx := (on_message r msg now s).2 in
  let bucket := default [] (registry_of ns s !! X) in
  fx = map (λ t, ws_send t (JSON_stringify message)) (recipients s bucket)
  ∧ (∀ id t w, id ∈ bucket → clients s !! id = Some t →
       heap s !! t = Some w → readyState w = OPEN →
       ws_send t (JSON_stringify message) ∈ fx)
  ∧ (∀ t w, heap s !! t = Some w → listeners w = true →
       readyState w = OPEN → bound_to ns w = Some X →
       ws_send t (JSON_stringify message) ∈ fx)
  ∧ (∀ t data, ws_send t data ∈ fx →
       data = JSON_stringify message
       ∧ ∃ w, heap s !! t = Some w ∧ readyState w = OPEN
              ∧ bound_to ns w = Some X ∧ clientId w ∈ bucket)
  ∧ (∀ t w data, heap s !! t = Some w → bound_to ns w ≠ Some X →
       ws_send t data ∉ fx).
Proof.
  intros Hreach Hr Hl Hcount Hparse Htarget Hid HX.
  pose proof (reachable_wf s Hreach) as Hwf. cbv zeta.
  rewrite (on_message_routed s r ws msg now message ns X) by done.
  cbn [snd].
  assert (Hsent : ∀ t data,
    ws_send t data ∈ map (λ t, ws_send t (JSON_stringify message))
                       (recipients s (default [] (registry_of ns s !! X))) →
    data = JSON_stringify message
    ∧ t ∈ recipients s (default [] (registry_of ns s !! X))).
  { intros t data (t' & [= -> ->] & Ht')%list_elem_of_fmap. done. }
  split; [done|]. split; [|split; [|split]].
  - intros id t w Hid' Hc Hw Hopen. apply list_elem_of_fmap. exists t.
    split; [done|]. apply elem_of_recipients. by exists id, w.
  - intros t w Hw Hlw Hopen Hkey. apply list_elem_of_fmap. exists t.
    split; [done|]. by eapply bound_recipient.
  - intros t data [-> Ht]%Hsent. split; [done|]. by apply recipient_bound.
  - intros t w data Hw Hkey [_ Ht]%Hsent.
    destruct (recipient_bound ns s X t Hwf Ht) as (w' & Hw' & _ & Hkey' & _).
    congruence.
Qed.

End routing.

Lemma routing_correct_witness :
  (@on_message sample_JSON 0 (sample_stringify to_lamp) 5 sample_relay).2
  = [ws_send 0 (sample_stringify to_lamp);
     ws_send 1 (sample_stringify to_lamp)]
  ∧ ∀ data,
      ws_send 2 data
      ∉ (@on_message sample_JSON 0 (sample_stringify to_lamp) 5
           sample_relay).2.
Proof.
  pose proof (@routing_correct sample_JSON sample_relay 0
                (mkWebSocket "uuid-a" true false 0 0 (Some "lamp") None OPEN
                   true)
                (sample_stringify to_lamp) 5 to_lamp device "lamp"
                sample_relay_reachable eq_refl eq_refl) as Hroute.
  destruct Hroute as (Hfx & _ & _ & _ & Hnot).
  - vm_compute. discriminate.
  - vm_compute. reflexivity.
  - reflexivity.
  - reflexivity.
  - discriminate.
  - split; [exact Hfx|]. intros data.
    apply (Hnot 2%nat
             (mkWebSocket "uuid-c" true false 0 0 None (Some "observer-7")
                OPEN true)); [reflexivity|discriminate].
Defined.

(** ** The sender is a recipient *)

(** C9.  A registered connection bound to [X] that sends a valid message
    for [X] in its own namespace has its own id in the bucket the router
    resolves, and, when open, is sent a copy of its own message. *)
Theorem sender_included `{JSON} s r ws msg now message ns X :
  reachable s → allowed s (Message r msg now) →
  heap s !! r = Some ws → listeners ws = true →
  (messageCount (count_message now ws) ≤ 25)%Z →
  JSON_parse msg = Some message →
  member message "target" = inr (Some (JSString (target_of ns))) →
  member message (field_of ns) = inr (Some (JSString X)) →
  bound_to ns ws = Some X →
  clientId ws ∈ default [] (registry_of ns s !! X)
  ∧ clients s !! clientId ws = Some r
  ∧ (readyState ws = OPEN →
     ws_send r (JSON_stringify message) ∈ (on_message r msg now s).2).
Proof.
  intros Hreach Hin Hr Hl Hcount Hparse Htarget Hid Hkey.
  pose proof (reachable_wf s Hreach) as Hwf.
  destruct (proj1 (wf_live s Hwf r) Hin) as (ws' & Hr' & Hopen).
  assert (ws' = ws) as -> by congruence.
  assert (Hreg : registered ws) by done.
  destruct (wf_registry ns s Hwf) as [_ Hout].
  destruct (Hout r ws X Hr Hreg Hkey) as [HX (ids & Hids & Hmem)].
  split; [by rewrite Hids|]. split.
  { apply (wf_clients s Hwf). by exists ws. }
  intros Hrs.
  rewrite (on_message_routed s r ws msg now message ns X) by done.
  cbn [snd]. apply list_elem_of_fmap. exists r. split; [done|].
  by eapply bound_recipient.
Qed.

Lemma sender_included_witness :
  ws_send 2 (sample_stringify to_observer)
  ∈ (@on_message sample_JSON 2 (sample_stringify to_observer) 7
       sample_relay).2.
Proof.
  refine (proj2 (proj2
    (@sender_included sample_JSON sample_relay 2
       (mkWebSocket "uuid-c" true false 0 0 None (Some "observer-7") OPEN
          true)
       (sample_stringify to_observer) 7 to_observer product "observer-7"
       sample_relay_reachable _ eq_refl eq_refl _ eq_refl eq_refl eq_refl
       eq_refl)) eq_refl).
  - apply (bool_decide_unpack _). vm_compute. exact I.
  - vm_compute. discriminate.
Defined.

(** ** Registry cleanup *)

Lemma closed_absent s r ws :
  wf s → heap s !! r = Some ws → readyState ws = CLOSED →
  absent (clientId ws) s.
Proof.
  intros Hwf Hr Hclosed.
  assert (Hno : ∀ t w, heap s !! t = Some w → clientId w = clientId ws →
                       ¬ registered w).
  { intros t w Hw Hcid [_ Hopen].
    assert (t = r) as -> by by eapply (wf_uuid s Hwf).
    congruence. }
  split; [|split].
  - destruct (clients s !! clientId ws) as [t|] eqn:Hc; [|done].
    apply (wf_clients s Hwf) in Hc as (w & Hw & Hcid & Hreg).
    by destruct (Hno t w).
  - intros (k & ids & Hk & Hid).
    destruct (wf_devices s Hwf) as [Hin _].
    destruct (Hin k ids Hk) as [_ Hmem].
    destruct (Hmem _ Hid) as (t & w & Hw & Hcid & _ & Hreg).
    by destruct (Hno t w).
  - intros (k & ids & Hk & Hid).
    destruct (wf_products s Hwf) as [Hin _].
    destruct (Hin k ids Hk) as [_ Hmem].
    destruct (Hmem _ Hid) as (t & w & Hw & Hcid & _ & Hreg).
    by destruct (Hno t w).
Qed.

Lemma wf_no_empty_bucket ns s k ids :
  wf s → registry_of ns s !! k = Some ids → ids ≠ [].
Proof.
  intros Hwf Hk. destruct (wf_registry ns s Hwf) as [Hin _].
  by destruct (Hin k ids Hk).
Qed.

Lemma on_close_registry ns r s ws :
  heap s !! r = Some ws → listeners ws = true →
  registry_of ns (on_close r s).1
  = unregister (bound_to ns ws) (clientId ws) (registry_of ns s).
Proof.
  intros Hr Hl. rewrite (on_close_Some r s ws Hr). cbn [fst]. rewrite Hl.
  by destruct ns.
Qed.

Lemma on_close_heap r s ws :
  heap s !! r = Some ws →
  heap (on_close r s).1 !! r = Some (set_readyState CLOSED ws).
Proof.
  intros Hr. rewrite (on_close_Some r s ws Hr). cbn [fst].
  destruct (listeners ws); apply lookup_insert_eq.
Qed.

(** C2.  In every reachable state the id of a socket whose 'close' event
    has fired is in neither the Connection Table nor any bucket of either
    registry, and no bucket is empty.  The 'close' event of a connection
    establishes this for that connection: afterwards the socket is closed
    and its id is gone from the table and from every bucket, a bucket that
    held nothing but this id is gone from its registry, and no bucket is
    left empty. *)
Theorem registry_cleanup `{JSON} s :
  reachable s →
  (∀ r ws, heap s !! r = Some ws → readyState ws = CLOSED →
           absent (clientId ws) s)
  ∧ (∀ ns k ids, registry_of ns s !! k = Some ids → ids ≠ [])
  ∧ (∀ r ws, allowed s (Close r) → heap s !! r = Some ws →
       (∃ ws', heap (on_close r s).1 !! r = Some ws'
               ∧ readyState ws' = CLOSED ∧ clientId ws' = clientId ws)
       ∧ absent (clientId ws) (on_close r s).1
       ∧ (∀ ns k ids, registry_of ns s !! k = Some ids →
            (∀ id, id ∈ ids → id = clientId ws) →
            registry_of ns (on_close r s).1 !! k = None)
       ∧ (∀ ns k ids, registry_of ns (on_close r s).1 !! k = Some ids →
            ids ≠ [])).
Proof.
  intros Hreach. pose proof (reachable_wf s Hreach) as Hwf.
  split; [by intros r ws; apply closed_absent|].
  split; [by intros ns k ids; apply wf_no_empty_bucket|].
  intros r ws Hok Hr.
  pose proof (wf_on_close r s Hwf Hok) as Hwf'.
  pose proof (on_close_heap r s ws Hr) as Hr'.
  split; [by eexists|].
  split; [by apply (closed_absent _ r (set_readyState CLOSED ws))|].
  split; [|by intros ns k ids; apply wf_no_empty_bucket].
  intros ns k ids Hk Hall.
  destruct (wf_registry ns s Hwf) as [Hin Hout].
  destruct (Hin k ids Hk) as [Hnil Hmem].
  destruct ids as [|id ids']; [done|].
  destruct (Hmem id) as (t & w & Hw & Hcid & Hkey & Hreg); [by left|].
  assert (t = r) as ->.
  { eapply (wf_uuid s Hwf); [done|done|]. rewrite Hcid. apply Hall. by left. }
  assert (w = ws) as -> by congruence.
  destruct (Hout r ws k Hr Hreg Hkey) as [Hnz _].
  rewrite (on_close_registry ns r s ws Hr (proj1 Hreg)), Hkey.
  assert (Hf : filter (λ e, e ≠ clientId ws) (id :: ids') = []).
  { destruct (filter _ _) as [|e rest] eqn:Hf; [done|].
    assert (He : e ∈ filter (λ e, e ≠ clientId ws) (id :: ids'))
      by (rewrite Hf; by left).
    apply list_elem_of_filter in He as [Hne He].
    by destruct Hne; apply Hall. }
  rewrite unregister_lookup_own, Hk by done.
  change (default [] (Some (id :: ids'))) with (id :: ids').
  by rewrite Hf.
Qed.

Lemma registry_cleanup_witness :
  absent "uuid-c" (on_close 2 sample_relay).1
  ∧ productIdClients (on_close 2 sample_relay).1 !! "observer-7" = None
  ∧ deviceIdClients (on_close 0 sample_relay).1 !! "lamp" = Some ["uuid-b"].
Proof.
  destruct (@registry_cleanup sample_JSON sample_relay sample_relay_reachable)
    as (_ & _ & Hclose).
  destruct (Hclose 2%nat
              (mkWebSocket "uuid-c" true false 0 0 None (Some "observer-7")
                 OPEN true))
    as (_ & Habsent & Hlast & _).
  - apply (bool_decide_unpack _). vm_compute. exact I.
  - reflexivity.
  - split; [exact Habsent|]. split; [|reflexivity].
    apply (Hlast product "observer-7" ["uuid-c"]); [reflexivity|].
    intros id Hid. by apply list_elem_of_singleton in Hid.
Defined.

(** ** The rate limiter *)

Lemma count_message_window now ws :
  (now - messageWindow ws > 1000)%Z →
  messageWindow (count_message now ws) = now
  ∧ messageCount (count_message now ws) = 1%Z.
Proof.
  intros Hgt. unfold count_message.
  destruct (Z.gtb_spec (now - messageWindow ws) 1000); [done|lia].
Qed.

Lemma count_message_same_window now ws :
  (now - messageWindow ws ≤ 1000)%Z →
  messageWindow (count_message now ws) = messageWindow ws
  ∧ messageCount (count_message now ws) = (messageCount ws + 1)%Z.
Proof.
  intros Hle. unfold count_message.
  destruct (Z.gtb_spec (now - messageWindow ws) 1000); [lia|done].
Qed.

Lemma rate_closes_app r fx1 fx2 :
  rate_closes r (fx1 ++ fx2) = rate_closes r fx1 + rate_closes r fx2.
Proof. unfold rate_closes. by rewrite filter_app, length_app. Qed.

Lemma rate_closes_none r fx :
  (∀ e, e ∈ fx → is_close e = false) → rate_closes r fx = 0.
Proof.
  intros Hfx. unfold rate_closes.
  destruct (filter _ fx) as [|e rest] eqn:Hf; [done|].
  assert (He : e ∈ filter (λ e, e = ws_close r 1008 "Rate limit exceeded") fx)
    by (rewrite Hf; by left).
  apply list_elem_of_filter in He as [-> He]. by apply Hfx in He.
Qed.

Lemma closes_left_store r r0 ws ws' s :
  heap s !! r0 = Some ws → isTerminating ws' = isTerminating ws →
  closes_left r (store r0 ws' s) = closes_left r s.
Proof.
  intros Hr0 Hterm. unfold closes_left. cbn [store set_heap heap].
  destruct (decide (r = r0)) as [->|Hne].
  - by rewrite lookup_insert_eq, Hr0, Hterm.
  - by rewrite lookup_insert_ne.
Qed.

Lemma heartbeat_one_no_close r s e :
  e ∈ (heartbeat_one r s).2 → is_close e = false.
Proof.
  unfold heartbeat_one. destruct (heap s !! r) as [ws|]; [|by inversion 1].
  destruct (isAlive ws); cbn [negb snd];
    by intros ->%list_elem_of_singleton.
Qed.

Lemma heartbeat_one_closes_left r r0 s :
  closes_left r (heartbeat_one r0 s).1 = closes_left r s.
Proof.
  unfold heartbeat_one. destruct (heap s !! r0) as [ws|] eqn:Hr0; [|done].
  destruct (isAlive ws); cbn [negb fst];
    apply (closes_left_store r r0 ws); try done.
  unfold WebSocket_terminate. by destruct (readyState ws).
Qed.

Lemma heartbeat_each_rate r rs s :
  (∀ e, e ∈ (heartbeat_each rs s).2 → is_close e = false)
  ∧ closes_left r (heartbeat_each rs s).1 = closes_left r s.
Proof.
  revert s. induction rs as [|r0 rs IH]; intros s.
  - split; [by inversion 1|done].
  - cbn [heartbeat_each].
    pose proof (heartbeat_one_no_close r0 s) as Hfx1.
    pose proof (heartbeat_one_closes_left r r0 s) as Hleft1.
    destruct (heartbeat_one r0 s) as [s1 fx1].
    destruct (IH s1) as [Hfx2 Hleft2].
    destruct (heartbeat_each rs s1) as [s2 fx2]. cbn [fst snd] in *.
    split; [|congruence].
    intros e [He|He]%elem_of_app; [by apply Hfx1|by apply Hfx2].
Qed.

Section rate.
Context `{JSON}.

Lemma route_no_close s msg sent e :
  route s msg = inr sent → e ∈ sent → is_close e = false.
Proof.
  unfold route. destruct (JSON_parse msg) as [message|]; [|done]. simpl.
  destruct (member message "target") as [err|target]; [done|]. simpl.
  destruct (includes _ target); [|done]. simpl.
  assert (Hrelay : ∀ ts,
    e ∈ map (λ t, ws_send t (JSON_stringify message)) ts →
    is_close e = false).
  { by intros ts (t & -> & _)%list_elem_of_fmap. }
  destruct (loose_eq target "device").
  - destruct (member message "deviceId") as [err|id]; [done|]. simpl.
    destruct (truthy id); [|done]. simpl. intros [= <-].
    rewrite relay_to_recipients. apply Hrelay.
  - destruct (loose_eq target "product"); [|by intros [= <-]; inversion 1].
    destruct (member message "productId") as [err|id]; [done|]. simpl.
    destruct (truthy id); [|done]. simpl. intros [= <-].
    rewrite relay_to_recipients. apply Hrelay.
Qed.
End rate.

Lemma on_connection_heap r uuid now device_id product_id s :
  ∃ ws, heap (on_connection r uuid now device_id product_id s).1
        = <[r := ws]> (heap s)
        ∧ isTerminating ws = false ∧ isAlive ws = true.
Proof.
  unfold on_connection.
  destruct (truthy_str device_id) eqn:Hd, (truthy_str product_id) eqn:Hp;
    cbn [negb andb fst].
  - eexists. new_socket_fields. done.
  - destruct device_id as [d|]; [|done].
    destruct product_id as [p|]; new_socket_fields; rewrite ?Hp;
      eexists; new_socket_fields; done.
  - destruct product_id as [p|]; [|done].
    destruct device_id as [d|]; new_socket_fields; rewrite ?Hd;
      eexists; new_socket_fields; done.
  - eexists. new_socket_fields. done.
Qed.

Lemma on_connection_no_rate_close r0 r uuid now device_id product_id s :
  rate_closes r (on_connection r0 uuid now device_id product_id s).2 = 0.
Proof.
  unfold on_connection.
  destruct (truthy_str device_id), (truthy_str product_id);
    cbn [negb andb snd]; try done;
    unfold rate_closes; rewrite filter_cons, decide_False; done.
Qed.

Lemma on_close_closes_left r r0 s :
  closes_left r (on_close r0 s).1 = closes_left r s.
Proof.
  destruct (heap s !! r0) as [ws|] eqn:Hr0.
  - rewrite (on_close_Some r0 s ws Hr0). cbn [fst].
    transitivity (closes_left r (store r0 (set_readyState CLOSED ws) s));
      [|by apply (closes_left_store r r0 ws)].
    by destruct (listeners ws).
  - by rewrite (on_close_None r0 s Hr0).
Qed.

Section rate_budget.
Context `{JSON}.

Lemma on_message_limited s r ws msg now :
  heap s !! r = Some ws → listeners ws = true →
  (messageCount (count_message now ws) > 25)%Z →
  on_message r msg now s
  = if isTerminating ws
    then (store r (count_message now ws) s, [])
    else (store r (WebSocket_close
                     (set_isTerminating true (count_message now ws))) s,
          [ws_close r 1008 "Rate limit exceeded";
           console_error
             ("WebSocket connection " +:+ clientId ws +:+
              " closed due to rate limit exceeded.") None]).
Proof.
  intros Hr Hl Hcount. unfold on_message. rewrite Hr, Hl.
  destruct (Z.gtb_spec (messageCount (count_message now ws)) 25); [|lia].
  destruct (count_message_static now ws) as (-> & _ & _ & _ & _ & _ & ->).
  by destruct (isTerminating ws).
Qed.

Lemma on_message_rate r r0 msg now s :
  rate_closes r (on_message r0 msg now s).2
  + closes_left r (on_message r0 msg now s).1 ≤ closes_left r s.
Proof.
  destruct (heap s !! r0) as [ws|] eqn:Hr0;
    [|by unfold on_message; rewrite Hr0].
  destruct (listeners ws) eqn:Hl;
    [|by unfold on_message; rewrite Hr0, Hl].
  destruct (count_message_static now ws) as (_ & _ & _ & _ & _ & _ & Hterm).
  destruct (Z.le_gt_cases (messageCount (count_message now ws)) 25)
    as [Hle|Hgt].
  - rewrite (on_message_accepted s r0 ws msg now Hr0 Hl Hle). cbn [fst snd].
    rewrite (closes_left_store r r0 ws) by done.
    rewrite rate_closes_none; [done|]. unfold try_route.
    destruct (route _ msg) as [err|sent] eqn:Hroute.
    + by intros e ->%list_elem_of_singleton.
    + intros e. by eapply route_no_close.
  - rewrite (on_message_limited s r0 ws msg now Hr0 Hl) by lia.
    destruct (isTerminating ws) eqn:Hws; cbn [fst snd].
    + rewrite (closes_left_store r r0 ws) by congruence. by cbn.
    + unfold rate_closes, closes_left. cbn [store set_heap heap].
      destruct (decide (r = r0)) as [->|Hne].
      * rewrite lookup_insert_eq, Hr0, Hws.
        replace (isTerminating (WebSocket_close _)) with true
          by (unfold WebSocket_close; by destruct (readyState _)).
        rewrite filter_cons, decide_True by done.
        rewrite filter_cons, decide_False by done. done.
      * rewrite lookup_insert_ne by done.
        rewrite filter_cons, decide_False by congruence.
        rewrite filter_cons, decide_False by done. simpl. lia.
Qed.

Lemma step_rate r e s :
  allowed s e →
  rate_closes r (step e s).2 + closes_left r (step e s).1 ≤ closes_left r s.
Proof.
  intros Hok. destruct e as [r0 uuid now d p|r0 msg now|r0|r0|r0 err|];
    cbn [step].
  - rewrite on_connection_no_rate_close.
    destruct (on_connection_heap r0 uuid now d p s) as (ws & Hheap & Ht & _).
    destruct Hok as [Hnew _]. unfold closes_left. rewrite Hheap.
    destruct (decide (r = r0)) as [->|Hne].
    + by rewrite lookup_insert_eq, Hnew, Ht.
    + by rewrite lookup_insert_ne.
  - apply on_message_rate.
  - unfold on_pong. destruct (heap s !! r0) as [ws|] eqn:Hr0; [|done].
    destruct (listeners ws); [|done]. cbn [fst snd].
    by rewrite (closes_left_store r r0 ws).
  - by rewrite on_close_no_effects, on_close_closes_left.
  - unfold on_error. destruct (heap s !! r0) as [ws|]; [|done].
    destruct (listeners ws); [|done]. cbn [fst snd].
    unfold rate_closes. by rewrite filter_cons, decide_False.
  - unfold heartbeat. destruct (heartbeat_each_rate r (wss_clients s) s)
      as [Hfx ->]. by rewrite rate_closes_none.
Qed.

Lemma run_rate r es s :
  allowed_run es s →
  rate_closes r (run es s).2 + closes_left r (run es s).1 ≤ closes_left r s.
Proof.
  revert s. induction es as [|e es IH]; intros s Hok; [done|].
  destruct Hok as [He Hes]. rewrite run_cons. cbn [fst snd].
  rewrite rate_closes_app.
  pose proof (step_rate r e s He). pose proof (IH _ Hes). lia.
Qed.

End rate_budget.

Section rate_runs.
Context `{JSON}.

Lemma try_route_no_close s msg e : e ∈ try_route s msg → is_close e = false.
Proof.
  unfold try_route. destruct (route s msg) as [err|sent] eqn:Hroute.
  - by intros ->%list_elem_of_singleton.
  - by eapply route_no_close.
Qed.

(** Frames that all arrive within the window of [ws] and do not take the
    counter past 25 are all processed, and only move the counter. *)
Lemma run_within_window r frames s ws :
  heap s !! r = Some ws → listeners ws = true →
  (messageCount ws + Z.of_nat (length frames) ≤ 25)%Z →
  Forall (λ f, (f.2 - messageWindow ws ≤ 1000)%Z) frames →
  (∃ ws', heap (run (messages r frames) s).1 !! r = Some ws'
          ∧ messageCount ws' = (messageCount ws + Z.of_nat (length frames))%Z
          ∧ messageWindow ws' = messageWindow ws
          ∧ isTerminating ws' = isTerminating ws
          ∧ listeners ws' = true
          ∧ clientId ws' = clientId ws)
  ∧ ∀ e, e ∈ (run (messages r frames) s).2 → is_close e = false.
Proof.
  revert s ws. induction frames as [|[msg now] frames IH];
    intros s ws Hr Hl Hcount Hwin.
  - split; [|by inversion 1]. exists ws. cbn. by rewrite Z.add_0_r.
  - apply Forall_cons in Hwin as [Hnow Hwin]. cbn [fst snd] in Hnow.
    cbn [length] in Hcount.
    destruct (count_message_same_window now ws Hnow) as [Hw1 Hc1].
    destruct (count_message_static now ws)
      as (Hid1 & _ & _ & Hl1 & _ & _ & Ht1).
    unfold messages. cbn [map]. rewrite run_cons. cbn [fst snd step].
    rewrite (on_message_accepted s r ws msg now Hr Hl) by lia.
    cbn [fst snd].
    destruct (IH (store r (count_message now ws) s) (count_message now ws))
      as [(ws' & Hr' & Hc' & Hw' & Ht' & Hl' & Hid') Hfx].
    + apply lookup_insert_eq.
    + congruence.
    + lia.
    + by rewrite Hw1.
    + split.
      * exists ws'. split; [exact Hr'|]. rewrite Hc', Hc1, Hw', Hw1.
        rewrite Ht', Ht1, Hid', Hid1. cbn [length]. split; [lia|done].
      * intros e [He|He]%elem_of_app;
          [by eapply try_route_no_close|by apply Hfx].
Qed.

(** C3.  For a connection [ws] with its listeners attached, on each frame:
    the window restarts ([messageWindow = now], counter 1 after the
    increment) when more than 1000 ms have passed since [messageWindow], and
    otherwise the counter goes up by one; when the counter then exceeds 25
    the frame is not routed, and the socket is closed with 1008 "Rate limit
    exceeded" if [isTerminating] was unset, else nothing is done; a frame
    that leaves the counter at 25 or less is routed and closes nothing.
    Over any run of events the socket is closed for this reason at most
    once, and never once [isTerminating] is set.  Starting a window with
    the counter at 0, 25 frames within the window close nothing, a 26th
    within the window closes the socket, and a 26th after the window has
    passed restarts the count at 1 and is routed. *)
Theorem rate_limit s r ws :
  heap s !! r = Some ws → listeners ws = true →
  (∀ msg now,
     ((now - messageWindow ws > 1000)%Z →
        messageWindow (count_message now ws) = now
        ∧ messageCount (count_message now ws) = 1%Z)
     ∧ ((now - messageWindow ws ≤ 1000)%Z →
          messageWindow (count_message now ws) = messageWindow ws
          ∧ messageCount (count_message now ws) = (messageCount ws + 1)%Z)
     ∧ ((messageCount (count_message now ws) > 25)%Z →
          isTerminating ws = false →
          on_message r msg now s
          = (store r (WebSocket_close
                        (set_isTerminating true (count_message now ws))) s,
             [ws_close r 1008 "Rate limit exceeded";
              console_error
                ("WebSocket connection " +:+ clientId ws +:+
                 " closed due to rate limit exceeded.") None]))
     ∧ ((messageCount (count_message now ws) > 25)%Z →
          isTerminating ws = true →
          on_message r msg now s = (store r (count_message now ws) s, []))
     ∧ ((messageCount (count_message now ws) ≤ 25)%Z →
          on_message r msg now s
          = (store r (count_message now ws) s,
             try_route (store r (count_message now ws) s) msg)
          ∧ ∀ e, e ∈ (on_message r msg now s).2 → is_close e = false))
  ∧ (∀ es, allowed_run es s →
       rate_closes r (run es s).2 ≤ 1
       ∧ (isTerminating ws = true → rate_closes r (run es s).2 = 0))
  ∧ (messageCount ws = 0%Z → isTerminating ws = false →
     ∀ frames, length frames = 25 →
       Forall (λ f, (f.2 - messageWindow ws ≤ 1000)%Z) frames →
       (∀ e, e ∈ (run (messages r frames) s).2 → is_close e = false)
       ∧ (∀ msg now, (now - messageWindow ws ≤ 1000)%Z →
            (on_message r msg now (run (messages r frames) s).1).2
            = [ws_close r 1008 "Rate limit exceeded";
               console_error
                 ("WebSocket connection " +:+ clientId ws +:+
                  " closed due to rate limit exceeded.") None])
       ∧ (∀ msg now, (now - messageWindow ws > 1000)%Z →
            (∃ ws26,
               heap (on_message r msg now (run (messages r frames) s).1).1
                 !! r = Some ws26
               ∧ messageCount ws26 = 1%Z ∧ messageWindow ws26 = now
               ∧ isTerminating ws26 = false)
            ∧ (on_message r msg now (run (messages r frames) s).1).2
              = try_route
                  (on_message r msg now (run (messages r frames) s).1).1 msg
            ∧ ∀ e, e ∈ (on_message r msg now
                          (run (messages r frames) s).1).2 →
                   is_close e = false)).
Proof.
  intros Hr Hl. split; [|split].
  - intros msg now. split; [apply count_message_window|].
    split; [apply count_message_same_window|].
    split; [|split].
    + intros Hgt Hterm.
      by rewrite (on_message_limited s r ws msg now Hr Hl Hgt), Hterm.
    + intros Hgt Hterm.
      by rewrite (on_message_limited s r ws msg now Hr Hl Hgt), Hterm.
    + intros Hle. rewrite (on_message_accepted s r ws msg now Hr Hl Hle).
      split; [done|]. intros e. apply try_route_no_close.
  - intros es Hok. pose proof (run_rate r es s Hok) as Hrun.
    unfold closes_left at 2 in Hrun. rewrite Hr in Hrun.
    destruct (isTerminating ws); split; try lia; done.
  - intros Hzero Hfresh frames Hlen Hwin.
    destruct (run_within_window r frames s ws Hr Hl) as
      [(ws25 & Hr25 & Hc25 & Hw25 & Ht25 & Hl25 & Hid25) Hfx]; [lia|done|].
    rewrite Hzero, Hlen in Hc25. split; [exact Hfx|]. split.
    + intros msg now Hnow.
      destruct (count_message_same_window now ws25) as [_ Hc26]; [by rewrite Hw25|].
      rewrite (on_message_limited _ r ws25 msg now Hr25 Hl25) by lia.
      by rewrite Ht25, Hfresh, Hid25.
    + intros msg now Hnow.
      destruct (count_message_window now ws25) as [Hw26 Hc26]; [by rewrite Hw25|].
      destruct (count_message_static now ws25)
        as (_ & _ & _ & _ & _ & _ & Ht26).
      rewrite (on_message_accepted _ r ws25 msg now Hr25 Hl25) by lia.
      cbn [fst snd]. split; [|split; [done|]].
      * exists (count_message now ws25). split; [apply lookup_insert_eq|].
        split; [done|]. split; [done|]. congruence.
      * intros e. apply try_route_no_close.
Qed.

End rate_runs.

Lemma rate_limit_witness :
  let frames := replicate 25 (sample_stringify to_lamp, 10%Z) in
  let s25 := (@run sample_JSON (messages 0 frames) sample_relay).1 in
  (∀ e, e ∈ (@run sample_JSON (messages 0 frames) sample_relay).2 →
        is_close e = false)
  ∧ (@on_message sample_JSON 0 (sample_stringify to_lamp) 900 s25).2
    = [ws_close 0 1008 "Rate limit exceeded";
       console_error
         "WebSocket connection uuid-a closed due to rate limit exceeded."
         None]
  ∧ ∀ e, e ∈ (@on_message sample_JSON 0 (sample_stringify to_lamp) 1001
                s25).2 → is_close e = false.
Proof.
  intros frames s25.
  destruct (@rate_limit sample_JSON sample_relay 0
              (mkWebSocket "uuid-a" true false 0 0 (Some "lamp") None OPEN
                 true) eq_refl eq_refl) as (_ & _ & Hwindow).
  destruct (Hwindow eq_refl eq_refl frames eq_refl) as (Hquiet & H26 & Hnext).
  - apply Forall_forall. intros f [-> _]%elem_of_replicate. cbn. lia.
  - split; [exact Hquiet|]. split.
    + apply (H26 (sample_stringify to_lamp) 900%Z). cbn. lia.
    + apply (Hnext (sample_stringify to_lamp) 1001%Z). cbn. lia.
Defined.

(** ** The heartbeat *)

Lemma heartbeat_one_lookup r0 s r :
  heap (heartbeat_one r0 s).1 !! r
  = if decide (r = r0) then after_tick <$> heap s !! r else heap s !! r.
Proof.
  unfold heartbeat_one, after_tick.
  destruct (heap s !! r0) as [ws|] eqn:Hr0.
  - destruct (isAlive ws) eqn:Ha; cbn [negb fst store set_heap heap];
      case_decide as Hr; subst;
      rewrite ?lookup_insert_eq, ?Hr0, ?lookup_insert_ne by done;
      cbn; by rewrite ?Ha.
  - cbn [fst]. case_decide; [subst; by rewrite Hr0|done].
Qed.

Lemma heartbeat_one_effects r0 s :
  (heartbeat_one r0 s).2
  = match heap s !! r0 with
    | Some ws => if isAlive ws then [ws_ping r0] else [ws_terminate r0]
    | None => []
    end.
Proof.
  unfold heartbeat_one. destruct (heap s !! r0) as [ws|]; [|done].
  by destruct (isAlive ws).
Qed.

Lemma heartbeat_each_spec rs s :
  NoDup rs →
  (∀ r, heap (heartbeat_each rs s).1 !! r
        = if decide (r ∈ rs) then after_tick <$> heap s !! r
          else heap s !! r)
  ∧ (∀ r, ws_terminate r ∈ (heartbeat_each rs s).2 ↔
          r ∈ rs ∧ ∃ ws, heap s !! r = Some ws ∧ isAlive ws = false)
  ∧ (∀ r, ws_ping r ∈ (heartbeat_each rs s).2 ↔
          r ∈ rs ∧ ∃ ws, heap s !! r = Some ws ∧ isAlive ws = true).
Proof.
  revert s. induction rs as [|r0 rs IH]; intros s Hnd.
  - cbn. split; [done|].
    split; intros r;
      (split; [by inversion 1|by intros [Hin _]; inversion Hin]).
  - apply NoDup_cons in Hnd as [Hr0 Hnd]. cbn [heartbeat_each].
    pose proof (heartbeat_one_lookup r0 s) as Hheap1.
    pose proof (heartbeat_one_effects r0 s) as Hfx1.
    destruct (heartbeat_one r0 s) as [s1 fx1].
    destruct (IH s1 Hnd) as (Hheap2 & Hterm2 & Hping2).
    destruct (heartbeat_each rs s1) as [s2 fx2]. cbn [fst snd] in *.
    assert (Hother : ∀ r, r ∈ rs → heap s1 !! r = heap s !! r).
    { intros r Hr. rewrite Hheap1. case_decide; [by subst|done]. }
    split; [|split].
    + intros r. rewrite Hheap2, Hheap1.
      destruct (decide (r = r0)) as [->|Hne].
      * rewrite decide_False, decide_True by (done || by left). done.
      * destruct (decide (r ∈ rs)) as [Hin|Hnin].
        -- by rewrite decide_True by by right.
        -- rewrite decide_False; [done|].
           by intros [?|?]%elem_of_cons.
    + intros r. rewrite elem_of_app, Hterm2, elem_of_cons, Hfx1. split.
      * intros [Hin|[Hin Hws]].
        -- destruct (heap s !! r0) as [ws|] eqn:Hws; [|by inversion Hin].
           destruct (isAlive ws) eqn:Ha;
             apply list_elem_of_singleton in Hin; [done|].
           injection Hin as ->. split; [by left|by exists ws].
        -- split; [by right|]. by rewrite <- (Hother r Hin).
      * intros [[->|Hin] (ws & Hws & Ha)].
        -- left. rewrite Hws, Ha. by apply list_elem_of_singleton.
        -- right. split; [done|]. rewrite (Hother r Hin). by exists ws.
    + intros r. rewrite elem_of_app, Hping2, elem_of_cons, Hfx1. split.
      * intros [Hin|[Hin Hws]].
        -- destruct (heap s !! r0) as [ws|] eqn:Hws; [|by inversion Hin].
           destruct (isAlive ws) eqn:Ha;
             apply list_elem_of_singleton in Hin; [|done].
           injection Hin as ->. split; [by left|by exists ws].
        -- split; [by right|]. by rewrite <- (Hother r Hin).
      * intros [[->|Hin] (ws & Hws & Ha)].
        -- left. rewrite Hws, Ha. by apply list_elem_of_singleton.
        -- right. split; [done|]. rewrite (Hother r Hin). by exists ws.
Qed.

Lemma after_tick_dead ws : isAlive ws = false → isAlive (after_tick ws) = false.
Proof.
  intros Ha. unfold after_tick, WebSocket_terminate. rewrite Ha.
  by destruct (readyState ws).
Qed.

Lemma heartbeat_each_dead rs s r ws :
  heap s !! r = Some ws → isAlive ws = false →
  ∃ ws', heap (heartbeat_each rs s).1 !! r = Some ws' ∧ isAlive ws' = false.
Proof.
  revert s ws. induction rs as [|r0 rs IH]; intros s ws Hr Ha; [by eauto|].
  cbn [heartbeat_each].
  pose proof (heartbeat_one_lookup r0 s r) as Hheap1.
  destruct (heartbeat_one r0 s) as [s1 fx1]. cbn [fst] in Hheap1.
  assert (∃ ws1, heap s1 !! r = Some ws1 ∧ isAlive ws1 = false)
    as (ws1 & Hr1 & Ha1).
  { rewrite Hheap1, Hr. case_decide; [|by eauto].
    eexists. split; [done|]. by apply after_tick_dead. }
  destruct (IH s1 ws1 Hr1 Ha1) as (ws' & Hr' & Ha').
  destruct (heartbeat_each rs s1) as [s2 fx2]. by eauto.
Qed.

Lemma on_connection_wss r uuid now device_id product_id s :
  wss_clients (on_connection r uuid now device_id product_id s).1
  = wss_clients s ++ [r].
Proof.
  unfold on_connection.
  destruct (truthy_str device_id) eqn:Hd, (truthy_str product_id) eqn:Hp;
    cbn [negb andb fst]; try done.
  - destruct device_id as [d|]; [|done].
    by destruct product_id as [p|]; new_socket_fields; rewrite ?Hp.
  - destruct product_id as [p|]; [|done].
    by destruct device_id as [d|]; new_socket_fields; rewrite ?Hd.
Qed.

Lemma on_close_other r0 s r :
  r ≠ r0 →
  heap (on_close r0 s).1 !! r = heap s !! r
  ∧ (r ∈ wss_clients s → r ∈ wss_clients (on_close r0 s).1).
Proof.
  intros Hne. destruct (heap s !! r0) as [ws0|] eqn:Hr0.
  - rewrite (on_close_Some r0 s ws0 Hr0). cbn [fst].
    destruct (listeners ws0);
      cbn [close_listener set_deviceIdClients set_productIdClients
           set_clients set_wss_clients store set_heap heap wss_clients];
      (split; [by apply lookup_insert_ne|]);
      intros Hin; by apply list_elem_of_filter.
  - by rewrite (on_close_None r0 s Hr0).
Qed.

Section liveness.
Context `{JSON}.

Lemma on_message_alive r0 msg now s r ws :
  heap s !! r = Some ws →
  ∃ ws', heap (on_message r0 msg now s).1 !! r = Some ws'
         ∧ isAlive ws' = isAlive ws.
Proof.
  intros Hr. unfold on_message.
  destruct (heap s !! r0) as [ws0|] eqn:Hr0; [|by eauto].
  destruct (listeners ws0); [|by eauto].
  destruct (count_message_static now ws0) as (_ & _ & _ & _ & _ & Ha & _).
  assert (Hstore : ∀ ws1, isAlive ws1 = isAlive ws0 →
    ∃ ws', heap (store r0 ws1 s) !! r = Some ws' ∧ isAlive ws' = isAlive ws).
  { intros ws1 Ha1. cbn [store set_heap heap].
    destruct (decide (r = r0)) as [->|Hne].
    - rewrite lookup_insert_eq. eexists. split; [done|]. congruence.
    - rewrite lookup_insert_ne by done. by eauto. }
  destruct (_ >? _)%Z; [|by apply Hstore].
  destruct (isTerminating _); cbn [negb fst]; apply Hstore; [done|].
  unfold WebSocket_close.
  by destruct (readyState (set_isTerminating true (count_message now ws0))).
Qed.

Lemma step_stays_dead r e s ws :
  allowed s e → e ≠ Pong r → heap s !! r = Some ws → isAlive ws = false →
  ∃ ws', heap (step e s).1 !! r = Some ws' ∧ isAlive ws' = false.
Proof.
  intros Hok Hnot Hr Ha.
  destruct e as [r0 uuid now d p|r0 msg now|r0|r0|r0 err|]; cbn [step].
  - destruct Hok as [Hnew _].
    destruct (on_connection_heap r0 uuid now d p s) as (ws0 & -> & _).
    rewrite lookup_insert_ne by congruence. by eauto.
  - destruct (on_message_alive r0 msg now s r ws Hr) as (ws' & Hr' & Ha').
    exists ws'. split; [done|congruence].
  - assert (r ≠ r0) by congruence. unfold on_pong.
    destruct (heap s !! r0) as [ws0|]; [|by eauto].
    destruct (listeners ws0); [|by eauto].
    cbn [fst store set_heap heap]. rewrite lookup_insert_ne by done.
    by eauto.
  - destruct (decide (r = r0)) as [->|Hne].
    + rewrite (on_close_heap r0 s ws Hr). by eauto.
    + rewrite (proj1 (on_close_other r0 s r Hne)). by eauto.
  - unfold on_error. destruct (heap s !! r0) as [ws0|]; [|by eauto].
    destruct (listeners ws0); by eauto.
  - by apply (heartbeat_each_dead _ _ _ ws).
Qed.

Lemma step_stays_listed r e s :
  e ≠ Close r → r ∈ wss_clients s → r ∈ wss_clients (step e s).1.
Proof.
  intros Hnot Hin.
  destruct e as [r0 uuid now d p|r0 msg now|r0|r0|r0 err|]; cbn [step].
  - rewrite on_connection_wss. apply elem_of_app. by left.
  - by destruct (on_message_same r0 msg now s) as (_ & -> & _).
  - by destruct (on_pong_same r0 s) as (_ & -> & _).
  - apply on_close_other; [congruence|done].
  - by destruct (on_error_same r0 err s) as (_ & -> & _).
  - by destruct (heartbeat_same s) as (_ & -> & _).
Qed.

Lemma run_stays_dead r es s ws :
  allowed_run es s → Pong r ∉ es → Close r ∉ es →
  heap s !! r = Some ws → isAlive ws = false → r ∈ wss_clients s →
  ∃ ws', heap (run es s).1 !! r = Some ws' ∧ isAlive ws' = false
         ∧ r ∈ wss_clients (run es s).1.
Proof.
  revert s ws. induction es as [|e es IH];
    intros s ws Hok Hpong Hclose Hr Ha Hin; [by eauto|].
  destruct Hok as [He Hes].
  apply not_elem_of_cons in Hpong as [Hp Hpong].
  apply not_elem_of_cons in Hclose as [Hc Hclose].
  rewrite run_cons. cbn [fst].
  destruct (step_stays_dead r e s ws He) as (ws1 & Hr1 & Ha1); try done.
  apply (IH (step e s).1 ws1); try done.
  by apply step_stays_listed.
Qed.

End liveness.

Section heartbeat_claim.
Context `{JSON}.

(** C5.  At a tick, a socket that has not emitted 'close' and whose
    [isAlive] is false is terminated (and is then [CLOSING], waiting for its
    'close' event), and one whose [isAlive] is true gets [isAlive = false]
    and a ping.  A 'pong' sets [isAlive] again, and no other event does.
    Hence, if between two ticks the socket neither answers nor closes, it is
    terminated at the first or at the second of them; with ticks
    [heartbeat_period] = 15000 ms apart, the second tick after a response
    comes at most 30000 ms after it. *)
Theorem heartbeat_liveness s r ws :
  reachable s → heap s !! r = Some ws → readyState ws ≠ CLOSED →
  (isAlive ws = false →
     ws_terminate r ∈ (heartbeat s).2 ∧ (ws_ping r ∉ (heartbeat s).2)
     ∧ ∃ ws', heap (heartbeat s).1 !! r = Some ws'
              ∧ readyState ws' = CLOSING)
  ∧ (isAlive ws = true →
       ws_ping r ∈ (heartbeat s).2 ∧ (ws_terminate r ∉ (heartbeat s).2)
       ∧ ∃ ws', heap (heartbeat s).1 !! r = Some ws'
                ∧ isAlive ws' = false ∧ readyState ws' = readyState ws)
  ∧ (listeners ws = true →
       ∃ ws', heap (on_pong r s).1 !! r = Some ws' ∧ isAlive ws' = true)
  ∧ (∀ e ws', allowed s e → isAlive ws = false →
       heap (step e s).1 !! r = Some ws' → isAlive ws' = true → e = Pong r)
  ∧ (∀ es, allowed_run es (heartbeat s).1 → Pong r ∉ es → Close r ∉ es →
       ws_terminate r ∈ (heartbeat s).2
       ∨ ws_terminate r ∈ (heartbeat (run es (heartbeat s).1).1).2)
  ∧ (∀ t T1, (t ≤ T1 ≤ t + heartbeat_period)%Z →
       (T1 + heartbeat_period ≤ t + 30000)%Z).
Proof.
  intros Hreach Hr Hopen. pose proof (reachable_wf s Hreach) as Hwf.
  assert (Hin : r ∈ wss_clients s) by (apply (wf_live s Hwf); by exists ws).
  destruct (heartbeat_each_spec (wss_clients s) s (wf_nodup s Hwf))
    as (Hheap & Hterm & Hping).
  fold (heartbeat s) in Hheap, Hterm, Hping.
  assert (Hafter : heap (heartbeat s).1 !! r = Some (after_tick ws)).
  { by rewrite Hheap, decide_True, Hr. }
  split; [|split; [|split; [|split; [|split]]]].
  - intros Ha. split; [apply Hterm; by eauto|]. split.
    + intros (_ & ws0 & Hr0 & Ha0)%Hping. congruence.
    + eexists. split; [exact Hafter|].
      unfold after_tick, WebSocket_terminate. rewrite Ha.
      by destruct (readyState ws).
  - intros Ha. split; [apply Hping; by eauto|]. split.
    + intros (_ & ws0 & Hr0 & Ha0)%Hterm. congruence.
    + eexists. split; [exact Hafter|]. unfold after_tick. by rewrite Ha.
  - intros Hl. unfold on_pong. rewrite Hr, Hl. cbn [fst store set_heap heap].
    rewrite lookup_insert_eq. by eauto.
  - intros e ws' Hok Ha Hr' Ha'.
    destruct (decide (e = Pong r)) as [->|Hne]; [done|].
    destruct (step_stays_dead r e s ws Hok Hne Hr Ha) as (ws1 & Hr1 & Ha1).
    congruence.
  - intros es Hok Hpong Hclose.
    destruct (isAlive ws) eqn:Ha; [|left; apply Hterm; by eauto].
    right.
    assert (Hreach1 : reachable (heartbeat s).1)
      by apply (reachable_step s Tick Hreach I).
    assert (Hin1 : r ∈ wss_clients (heartbeat s).1)
      by by destruct (heartbeat_same s) as (_ & -> & _).
    destruct (run_stays_dead r es (heartbeat s).1 (after_tick ws))
      as (ws2 & Hr2 & Ha2 & Hin2); try done.
    { unfold after_tick. by rewrite Ha. }
    pose proof (reachable_wf _ (reachable_run es _ Hreach1 Hok)) as Hwf2.
    apply (heartbeat_each_spec _ _ (wf_nodup _ Hwf2)). by eauto.
  - unfold heartbeat_period. lia.
Qed.

End heartbeat_claim.

Lemma heartbeat_liveness_witness :
  ws_ping 1 ∈ (heartbeat sample_relay).2
  ∧ ws_terminate 1
    ∈ (heartbeat
         (@run sample_JSON [Message 0 (sample_stringify to_lamp) 20000; Pong 0]
            (heartbeat sample_relay).1).1).2.
Proof.
  destruct (@heartbeat_liveness sample_JSON sample_relay 1
              (mkWebSocket "uuid-b" true false 0 0 (Some "lamp") None OPEN
                 true) sample_relay_reachable eq_refl)
    as (_ & Halive & _ & _ & Htwo & _); [discriminate|].
  split; [by apply Halive|].
  destruct (Htwo [Message 0 (sample_stringify to_lamp) 20000; Pong 0])
    as [Hfirst|Hsecond].
  - apply (bool_decide_unpack _). vm_compute. exact I.
  - apply (bool_decide_unpack _). vm_compute. exact I.
  - apply (bool_decide_unpack _). vm_compute. exact I.
  - exfalso. revert Hfirst. apply (bool_decide_unpack _). vm_compute. exact I.
  - exact Hsecond.
Defined.

(** * Further properties *)

(** ** The firmware route, again *)

Lemma endsWith_slash_app pre : endsWith_slash (pre +:+ "/") = true.
Proof.
  induction pre as [|c pre IH]; [done|].
  rewrite append_cons. cbn [endsWith_slash]. rewrite IH.
  by destruct (pre +:+ "/") eqn:E; [destruct pre|].
Qed.

Lemma firmware_observer_filtered bucket l :
  firmware_observer bucket (Some (Some l))
  = firmware_observer bucket
      (Some (Some (filter (λ item, endsWith_slash (Key item) = false) l))).
Proof.
  unfold firmware_observer.
  assert (Hd : ∀ x : list S3Object, default [] (Some x) = x) by done.
  rewrite !Hd, list_filter_filter.
  by rewrite (list_filter_iff
               (λ item, endsWith_slash (Key item) = false
                        ∧ endsWith_slash (Key item) = false)
               (λ item, endsWith_slash (Key item) = false)) by tauto.
Qed.

(** X1.  Folder placeholders never answer: an object whose key ends in a
    slash at the head of the listing is passed over, and a listing that is
    missing, empty or made of such objects only is answered with 404 "No
    firmware found!". *)
Theorem firmware_folders_skipped bucket :
  (∀ pre t rest,
     firmware_observer bucket
       (Some (Some (mkS3Object (pre +:+ "/") t :: rest)))
     = firmware_observer bucket (Some (Some rest)))
  ∧ (∀ l, firmware_observer bucket (Some (Some (folders l)))
          = (404%Z, error_body "No firmware found!"))
  ∧ firmware_observer bucket (Some None)
    = (404%Z, error_body "No firmware found!").
Proof.
  assert (Hhead : ∀ pre t rest,
    filter (λ item, endsWith_slash (Key item) = false)
      (mkS3Object (pre +:+ "/") t :: rest)
    = filter (λ item, endsWith_slash (Key item) = false) rest).
  { intros pre t rest. rewrite filter_cons, decide_False; [done|].
    cbn [Key]. by rewrite endsWith_slash_app. }
  split; [|split; [|done]].
  - intros pre t rest.
    by rewrite firmware_observer_filtered, Hhead, <- firmware_observer_filtered.
  - intros l. rewrite firmware_observer_filtered.
    replace (filter _ (folders l)) with (@nil S3Object); [done|].
    induction l as [|[pre t] l IH]; [done|].
    unfold folders. cbn [map fst snd]. by rewrite Hhead.
Qed.

(** X2.  Only the first object that is not a folder counts, wherever it
    stands in the listing: the folders before it are passed over and
    whatever follows it does not change the answer, which is the answer to
    a listing of that object alone. *)
Theorem firmware_first_only bucket front file rest :
  Forall (λ item, endsWith_slash (Key item) = true) front →
  endsWith_slash (Key file) = false →
  firmware_observer bucket (Some (Some (front ++ file :: rest)))
  = firmware_observer bucket (Some (Some [file])).
Proof.
  intros Hfront Hfile. unfold firmware_observer.
  assert (Hd : ∀ x : list S3Object, default [] (Some x) = x) by done.
  assert (Hnone : filter (λ item, endsWith_slash (Key item) = false) front
                  = []).
  { induction Hfront as [|item front Hitem _ IH]; [done|].
    rewrite filter_cons, decide_False; [done|]. by rewrite Hitem. }
  rewrite !Hd, filter_app, Hnone, !filter_cons, !decide_True by done. done.
Qed.

Lemma firmware_first_only_witness :
  firmware_observer "relay" (Some (Some sample_listing))
  = firmware_observer "relay"
      (Some (Some [mkS3Object
                     "rootprivacy/firmware/observer/observer-1.0.0.bin"
                     100])).
Proof.
  apply (firmware_first_only "relay"
           [mkS3Object "rootprivacy/firmware/observer/" 50]
           (mkS3Object "rootprivacy/firmware/observer/observer-1.0.0.bin"
              100)
           [mkS3Object "rootprivacy/firmware/observer/observer-1.0.1.bin"
              200]).
  - apply Forall_cons. split; [reflexivity|apply Forall_nil_2].
  - reflexivity.
Defined.

Lemma digits_rest s d t : digits s = (d, t) → starts_with_digit t = false.
Proof.
  revert d t. induction s as [|c s IH]; intros d t; cbn [digits].
  - by intros [= <- <-].
  - destruct (is_digit c) eqn:Hc.
    + destruct (digits s) as [d' t'] eqn:Hd. intros [= <- <-]. by eapply IH.
    + intros [= <- <-]. exact Hc.
Qed.

Lemma semver_here_greedy s v :
  semver_here s = Some v →
  ∃ post, s = v +:+ post ∧ starts_with_digit post = false.
Proof.
  unfold semver_here.
  destruct (digits s) as [a s1] eqn:Ha.
  case_bool_decide as Hane; [done|].
  destruct (dot s1) as [s2|] eqn:Hdot1; [|done].
  apply dot_sound in Hdot1 as ->.
  destruct (digits s2) as [b s3] eqn:Hb.
  case_bool_decide as Hbne; [done|].
  destruct (dot s3) as [s4|] eqn:Hdot2; [|done].
  apply dot_sound in Hdot2 as ->.
  destruct (digits s4) as [c post] eqn:Hc.
  case_bool_decide as Hcne; [done|].
  intros [= <-]. exists post. split; [|by eapply digits_rest].
  apply digits_sound in Ha as [-> _], Hb as [-> _], Hc as [-> _].
  by rewrite !append_assoc.
Qed.

Lemma string_length_app (a b : string) :
  String.length (a +:+ b) = String.length a + String.length b.
Proof.
  induction a as [|c a IH]; [done|]. rewrite append_cons. cbn. by rewrite IH.
Qed.

(** X3.  The version is the leftmost text of the form digits.digits.digits
    in the key, taken with all the digits of its last number: it is followed
    by no digit, and no text of that form starts earlier in the key. *)
Theorem versionMatch_leftmost key v :
  versionMatch key = Some v →
  ∃ pre post,
    key = pre +:+ v +:+ post ∧ semver v
    ∧ starts_with_digit post = false
    ∧ ∀ pre1 v1 post1, key = pre1 +:+ v1 +:+ post1 → semver v1 →
        String.length pre ≤ String.length pre1.
Proof.
  revert v. induction key as [|x key IH]; intros v; [done|].
  cbn [versionMatch]. destruct (semver_here (String x key)) as [w|] eqn:Hh.
  - intros [= ->]. destruct (semver_here_greedy _ _ Hh) as (post & Hkey & Hg).
    destruct (semver_here_sound _ _ Hh) as (post' & _ & Hsem).
    exists "", post. rewrite append_nil_l. repeat split; try done.
    intros. cbn. lia.
  - intros (pre & post & -> & Hsem & Hg & Hleft)%IH.
    exists (String x pre), post. rewrite append_cons.
    repeat split; try done.
    intros pre1 v1 post1 Hkey Hsem1. destruct pre1 as [|y pre1].
    + rewrite append_nil_l in Hkey.
      destruct (semver_here_complete v1 post1 Hsem1) as [w Hw].
      rewrite <- Hkey in Hw. congruence.
    + rewrite append_cons in Hkey. injection Hkey as _ Hkey.
      cbn [String.length]. specialize (Hleft pre1 v1 post1 Hkey Hsem1). lia.
Qed.

Lemma versionMatch_leftmost_witness :
  ∃ pre post,
    "observer-10.2.345.6.bin" = pre +:+ "10.2.345" +:+ post
    ∧ semver "10.2.345"
    ∧ starts_with_digit post = false
    ∧ ∀ pre1 v1 post1,
        "observer-10.2.345.6.bin" = pre1 +:+ v1 +:+ post1 → semver v1 →
        String.length pre ≤ String.length pre1.
Proof. by apply versionMatch_leftmost. Defined.

(** X4.  Within a bucket, the public URL tells the objects apart: keys that
    differ give URLs that differ. *)
Theorem getPublicObjectURL_inj bucket key1 key2 :
  key1 ≠ key2 →
  getPublicObjectURL bucket key1 ≠ getPublicObjectURL bucket key2.
Proof.
  intros Hne Heq. apply Hne. unfold getPublicObjectURL in Heq.
  by repeat apply (inj (String.app _)) in Heq.
Qed.

Lemma getPublicObjectURL_inj_witness :
  getPublicObjectURL "relay" "rootprivacy/firmware/observer/a-1.0.0.bin"
  ≠ getPublicObjectURL "relay" "rootprivacy/firmware/observer/a-1.0.1.bin".
Proof. by apply getPublicObjectURL_inj. Defined.

(** ** The router, again *)

Lemma relay_to_store `{JSON} s r ws ws' message id :
  heap s !! r = Some ws → readyState ws' = readyState ws →
  relay_to (store r ws' s) message id = relay_to s message id.
Proof.
  intros Hr Hrs. unfold relay_to. cbn [store set_heap clients heap].
  destruct (clients s !! id) as [t|]; [|done].
  destruct (decide (t = r)) as [->|Hne].
  - by rewrite lookup_insert_eq, Hr, Hrs.
  - by rewrite lookup_insert_ne.
Qed.

Lemma bind_relay_to_store `{JSON} s r ws ws' message ids :
  heap s !! r = Some ws → readyState ws' = readyState ws →
  ids ≫= relay_to (store r ws' s) message = ids ≫= relay_to s message.
Proof.
  intros Hr Hrs. induction ids as [|id ids IH]; [done|].
  cbn [mbind list_bind].
  by rewrite IH, (relay_to_store s r ws ws' message id Hr Hrs).
Qed.

Section router_edges.
Context `{JSON}.

Lemma route_store s r ws ws' msg :
  heap s !! r = Some ws → readyState ws' = readyState ws →
  route (store r ws' s) msg = route s msg.
Proof.
  intros Hr Hrs. unfold route.
  destruct (JSON_parse msg) as [message|]; [|done]. simpl.
  destruct (member message "target") as [err|target]; [done|]. simpl.
  destruct (includes _ target); [|done]. simpl.
  destruct (loose_eq target "device").
  - destruct (member message "deviceId") as [err|id]; [done|]. simpl.
    destruct (truthy id); [|done]. simpl.
    by rewrite (bind_relay_to_store s r ws ws').
  - destruct (loose_eq target "product"); [|done].
    destruct (member message "productId") as [err|id]; [done|]. simpl.
    destruct (truthy id); [|done]. simpl.
    by rewrite (bind_relay_to_store s r ws ws').
Qed.

Lemma on_message_accepted_effects s r ws msg now :
  heap s !! r = Some ws → listeners ws = true →
  (messageCount (count_message now ws) ≤ 25)%Z →
  (on_message r msg now s).2 = try_route s msg.
Proof.
  intros Hr Hl Hcount.
  rewrite (on_message_accepted s r ws msg now Hr Hl Hcount). cbn [snd].
  unfold try_route. rewrite (route_store s r ws); [done|done|].
  apply count_message_static.
Qed.

(** X5.  A message for an identifier that has no bucket is dropped without
    a trace: nothing is sent and nothing is logged. *)
Theorem unknown_identifier_silent s r ws msg now message ns X :
  heap s !! r = Some ws → listeners ws = true →
  (messageCount (count_message now ws) ≤ 25)%Z →
  JSON_parse msg = Some message →
  member message "target" = inr (Some (JSString (target_of ns))) →
  member message (field_of ns) = inr (Some (JSString X)) →
  X ≠ "" →
  registry_of ns s !! X = None →
  (on_message r msg now s).2 = [].
Proof.
  intros Hr Hl Hcount Hparse Htarget Hid HX Hnone.
  rewrite (on_message_routed s r ws msg now message ns X) by done.
  by rewrite Hnone.
Qed.

(** X6.  An id field that is truthy but not a string (a number, [true], an
    array, an object) passes validation and then matches no key of the
    registry: the message is dropped without a send and without a log. *)
Theorem non_string_id_silent s r ws msg now message ns id :
  heap s !! r = Some ws → listeners ws = true →
  (messageCount (count_message now ws) ≤ 25)%Z →
  JSON_parse msg = Some message →
  member message "target" = inr (Some (JSString (target_of ns))) →
  member message (field_of ns) = inr id →
  truthy id = true →
  (∀ X, id ≠ Some (JSString X)) →
  (on_message r msg now s).2 = [].
Proof.
  intros Hr Hl Hcount Hparse Htarget Hid Htruthy Hnot.
  rewrite (on_message_accepted_effects s r ws msg now Hr Hl Hcount).
  unfold try_route, route. rewrite Hparse. simpl. rewrite Htarget.
  assert (Hget : ∀ m, Map_get m id = None).
  { intros m. destruct id as [[| | |X| |]|]; try done. by destruct (Hnot X). }
  destruct ns; simpl in *; rewrite Hid; simpl; rewrite Htruthy; simpl;
    by rewrite Hget.
Qed.

(** X7.  The router does not look at who is sending: two connections
    whose frames get past the rate limiter obtain, for the same frame in the
    same state, the same sends, whatever namespace either is bound to. *)
Theorem sender_irrelevant s r1 ws1 now1 r2 ws2 now2 msg :
  heap s !! r1 = Some ws1 → listeners ws1 = true →
  (messageCount (count_message now1 ws1) ≤ 25)%Z →
  heap s !! r2 = Some ws2 → listeners ws2 = true →
  (messageCount (count_message now2 ws2) ≤ 25)%Z →
  (on_message r1 msg now1 s).2 = (on_message r2 msg now2 s).2.
Proof.
  intros Hr1 Hl1 Hc1 Hr2 Hl2 Hc2.
  by rewrite (on_message_accepted_effects s r1 ws1 msg now1),
    (on_message_accepted_effects s r2 ws2 msg now2).
Qed.

End router_edges.

Lemma unknown_identifier_silent_witness :
  (@on_message flat_JSON 0 (flat_stringify to_stranger) 3 sample_relay).2
  = [].
Proof.
  apply (@unknown_identifier_silent flat_JSON sample_relay 0
           (mkWebSocket "uuid-a" true false 0 0 (Some "lamp") None OPEN true)
           (flat_stringify to_stranger) 3 to_stranger product "kettle");
    try reflexivity.
  - vm_compute. discriminate.
  - discriminate.
Defined.

Lemma non_string_id_silent_witness :
  (@on_message flat_JSON 2 (flat_stringify to_true) 3 sample_relay).2 = [].
Proof.
  apply (@non_string_id_silent flat_JSON sample_relay 2
           (mkWebSocket "uuid-c" true false 0 0 None (Some "observer-7") OPEN
              true)
           (flat_stringify to_true) 3 to_true device
           (Some (JSBoolean true)));
    try reflexivity.
  - vm_compute. discriminate.
  - discriminate.
Defined.

Lemma sender_irrelevant_witness :
  (@on_message sample_JSON 0 (sample_stringify to_observer) 3 sample_relay).2
  = (@on_message sample_JSON 2 (sample_stringify to_observer) 800
       sample_relay).2.
Proof.
  apply (@sender_irrelevant sample_JSON sample_relay 0
           (mkWebSocket "uuid-a" true false 0 0 (Some "lamp") None OPEN true)
           3 2
           (mkWebSocket "uuid-c" true false 0 0 None (Some "observer-7") OPEN
              true) 800);
    try reflexivity; vm_compute; discriminate.
Defined.

(** ** What each event can touch *)

Section frames.
Context `{JSON}.

Lemma on_message_other r0 msg now s r :
  r ≠ r0 → heap (on_message r0 msg now s).1 !! r = heap s !! r.
Proof.
  intros Hne. unfold on_message.
  destruct (heap s !! r0) as [ws0|]; [|done].
  destruct (listeners ws0); [|done].
  destruct (_ >? _)%Z; [destruct (isTerminating _)|];
    cbn [negb fst store set_heap heap]; by rewrite lookup_insert_ne.
Qed.

(** X8.  Only the 'connection' and 'close' events write to the Connection
    Table, the registries and [wss.clients]: a frame, a pong, a socket
    error and a heartbeat tick leave all four as they were.  A frame or a
    pong writes to the object of its own socket only, and a socket error
    writes nothing at all (it does not tear the connection down). *)
Theorem tables_frame e s :
  changes_tables e = false →
  clients (step e s).1 = clients s
  ∧ deviceIdClients (step e s).1 = deviceIdClients s
  ∧ productIdClients (step e s).1 = productIdClients s
  ∧ wss_clients (step e s).1 = wss_clients s
  ∧ (∀ r0 msg now r, e = Message r0 msg now → r ≠ r0 →
       heap (step e s).1 !! r = heap s !! r)
  ∧ (∀ r0 r, e = Pong r0 → r ≠ r0 → heap (step e s).1 !! r = heap s !! r)
  ∧ (∀ r0 error, e = SocketError r0 error → (step e s).1 = s).
Proof.
  intros He.
  assert (Hsame : same_registry s (step e s).1).
  { destruct e; try done; cbn [step].
    - apply on_message_same.
    - apply on_pong_same.
    - apply on_error_same.
    - apply heartbeat_same. }
  destruct Hsame as (_ & Hw & Hc & Hd & Hp).
  repeat split; try done.
  - intros r0 msg now r -> Hne. by apply on_message_other.
  - intros r0 r -> Hne. cbn [step]. unfold on_pong.
    destruct (heap s !! r0) as [ws0|]; [|done].
    destruct (listeners ws0); [|done].
    cbn [fst store set_heap heap]. by rewrite lookup_insert_ne.
  - intros r0 error ->. cbn [step]. unfold on_error.
    destruct (heap s !! r0) as [ws0|]; [|done]. by destruct (listeners ws0).
Qed.

End frames.

Lemma tables_frame_witness :
  clients (@step sample_JSON (Message 0 (sample_stringify to_lamp) 4)
             sample_relay).1 = clients sample_relay
  ∧ heap (@step sample_JSON (Message 0 (sample_stringify to_lamp) 4)
            sample_relay).1 !! 1%nat = heap sample_relay !! 1%nat
  ∧ (@step sample_JSON (SocketError 1 TypeError) sample_relay).1
    = sample_relay.
Proof.
  destruct (@tables_frame sample_JSON
              (Message 0 (sample_stringify to_lamp) 4) sample_relay eq_refl)
    as (Hc & _ & _ & _ & Hm & _).
  destruct (@tables_frame sample_JSON (SocketError 1 TypeError) sample_relay
              eq_refl) as (_ & _ & _ & _ & _ & _ & He).
  split; [exact Hc|]. split.
  - by apply (Hm 0%nat (sample_stringify to_lamp) 4%Z).
  - by apply (He 1%nat TypeError).
Defined.

(** ** Tidy states *)

Lemma later_refl ws : later ws ws.
Proof. by split; [|split; [|split]]. Qed.

Lemma later_trans a b c : later a b → later b c → later a c.
Proof.
  intros (Hl1 & Hd1 & Hp1 & Ho1) (Hl2 & Hd2 & Hp2 & Ho2).
  split; [congruence|]. split; [congruence|]. split; [congruence|].
  intros Hc. destruct (Ho2 Hc) as [Hb Ht2]. destruct (Ho1 Hb) as [Ha Ht1].
  split; congruence.
Qed.

Lemma socket_ok_later a b : socket_ok a → later a b → socket_ok b.
Proof.
  intros [Hrole Hopen] (Hl & Hd & Hp & Ho). split.
  - by rewrite Hl, Hd, Hp.
  - intros Hb. destruct (Ho Hb) as [Ha Ht]. destruct (Hopen Ha).
    split; congruence.
Qed.

Lemma later_count_message now ws : later ws (count_message now ws).
Proof.
  destruct (count_message_static now ws) as (_ & ? & ? & ? & ? & _ & ?).
  split; [done|]. split; [done|]. split; [done|]. intros Ho.
  split; congruence.
Qed.

Lemma later_closing ws ws' :
  listeners ws' = listeners ws → deviceId ws' = deviceId ws →
  productId ws' = productId ws → readyState ws' ≠ OPEN → later ws ws'.
Proof. intros ? ? ? Hno. by split; [|split; [|split]]. Qed.

Lemma WebSocket_close_not_open ws : readyState (WebSocket_close ws) ≠ OPEN.
Proof. unfold WebSocket_close. by destruct (readyState ws) eqn:E; cbn; rewrite ?E. Qed.

(** Every socket of [s'] is a later version of the one [s] has there. *)
Lemma sockets_later_store s r ws ws' :
  heap s !! r = Some ws → later ws ws' →
  ∀ t w', heap (store r ws' s) !! t = Some w' →
          ∃ w, heap s !! t = Some w ∧ later w w'.
Proof.
  intros Hr Hlater t w'. cbn [store set_heap heap].
  destruct (decide (t = r)) as [->|Hne].
  - rewrite lookup_insert_eq. intros [= <-]. by exists ws.
  - rewrite lookup_insert_ne by done. intros Hw. exists w'.
    split; [done|apply later_refl].
Qed.

Lemma sockets_later_refl s :
  ∀ t w', heap s !! t = Some w' → ∃ w, heap s !! t = Some w ∧ later w w'.
Proof. intros t w' Hw. exists w'. split; [done|apply later_refl]. Qed.

Lemma heartbeat_one_later r s :
  ∀ t w', heap (heartbeat_one r s).1 !! t = Some w' →
          ∃ w, heap s !! t = Some w ∧ later w w'.
Proof.
  unfold heartbeat_one. destruct (heap s !! r) as [ws|] eqn:Hr;
    [|apply sockets_later_refl].
  destruct (isAlive ws); cbn [negb fst];
    apply (sockets_later_store s r ws); try done.
  unfold WebSocket_terminate. destruct (readyState ws) eqn:E;
    (split; [done|]; split; [done|]; split; [done|]); cbn;
    rewrite ?E; done.
Qed.

Lemma heartbeat_each_later rs s :
  ∀ t w', heap (heartbeat_each rs s).1 !! t = Some w' →
          ∃ w, heap s !! t = Some w ∧ later w w'.
Proof.
  revert s. induction rs as [|r rs IH]; intros s; [apply sockets_later_refl|].
  cbn [heartbeat_each].
  pose proof (heartbeat_one_later r s) as H1.
  destruct (heartbeat_one r s) as [s1 fx1].
  pose proof (IH s1) as H2.
  destruct (heartbeat_each rs s1) as [s2 fx2]. cbn [fst] in *.
  intros t w2 Hw2. destruct (H2 t w2 Hw2) as (w1 & Hw1 & Hl2).
  destruct (H1 t w1 Hw1) as (w & Hw & Hl1).
  exists w. split; [done|]. by eapply later_trans.
Qed.

Lemma on_message_later `{JSON} r msg now s :
  ∀ t w', heap (on_message r msg now s).1 !! t = Some w' →
          ∃ w, heap s !! t = Some w ∧ later w w'.
Proof.
  unfold on_message. destruct (heap s !! r) as [ws|] eqn:Hr;
    [|apply sockets_later_refl].
  destruct (listeners ws); [|apply sockets_later_refl].
  pose proof (later_count_message now ws) as Hcount.
  destruct (_ >? _)%Z.
  - destruct (isTerminating _); cbn [negb fst];
      apply (sockets_later_store s r ws); try done.
    destruct Hcount as (Hl & Hd & Hp & _).
    apply later_closing; try apply WebSocket_close_not_open;
      unfold WebSocket_close;
      by destruct (readyState (set_isTerminating true (count_message now ws))).
  - by apply (sockets_later_store s r ws).
Qed.

Lemma unregister_NoDup key id (m : gmap string (list string)) :
  (∀ k ids, m !! k = Some ids → NoDup ids) →
  ∀ k ids, unregister key id m !! k = Some ids → NoDup ids.
Proof.
  intros Hm k ids. destruct key as [k0|]; [|apply Hm].
  destruct (decide (k0 = "")) as [->|Hnz]; [apply Hm|].
  destruct (decide (k = k0)) as [->|Hne].
  - rewrite unregister_lookup_own by done.
    destruct (m !! k0) as [old|] eqn:Hold; [|done]. cbn.
    destruct (filter _ old) as [|e rest] eqn:Hf; [done|].
    intros [= <-]. rewrite <- Hf. apply NoDup_filter. by eapply Hm.
  - rewrite unregister_lookup_other by congruence. apply Hm.
Qed.

Lemma on_connection_socket r uuid now device_id product_id s :
  ∃ ws, heap (on_connection r uuid now device_id product_id s).1
        = <[r := ws]> (heap s)
        ∧ socket_ok ws ∧ clientId ws = uuid.
Proof.
  unfold on_connection.
  destruct (truthy_str device_id) eqn:Hd, (truthy_str product_id) eqn:Hp;
    cbn [negb andb fst].
  - eexists. new_socket_fields. split; [done|]. by split; [split|].
  - destruct device_id as [d|]; [|done].
    assert (d ≠ "") by by apply truthy_str_Some.
    destruct product_id as [p|]; new_socket_fields; rewrite ?Hp;
      eexists; new_socket_fields; (split; [done|]); (split; [|done]);
      (split; [|done]); left; by exists d.
  - destruct product_id as [p|]; [|done].
    assert (p ≠ "") by by apply truthy_str_Some.
    destruct device_id as [d|]; new_socket_fields; rewrite ?Hd;
      eexists; new_socket_fields; (split; [done|]); (split; [|done]);
      (split; [|done]); right; by exists p.
  - eexists. new_socket_fields. split; [done|]. by split; [split|].
Qed.

Lemma on_connection_registry ns r uuid now device_id product_id s k ids :
  registry_of ns (on_connection r uuid now device_id product_id s).1 !! k
  = Some ids →
  registry_of ns s !! k = Some ids
  ∨ ids = default [] (registry_of ns s !! k) ++ [uuid].
Proof.
  unfold on_connection.
  destruct (truthy_str device_id) eqn:Hd, (truthy_str product_id) eqn:Hp;
    cbn [negb andb fst].
  - destruct ns; by left.
  - destruct device_id as [d|]; [|done].
    destruct product_id as [p|]; new_socket_fields; rewrite ?Hp;
      (destruct ns; cbn [registry_of]; new_socket_fields; [|by left]);
      (destruct (decide (k = d)) as [->|Hne];
       [rewrite lookup_insert_eq; intros [= <-]; by right
       |rewrite lookup_insert_ne by done; by left]).
  - destruct product_id as [p|]; [|done].
    destruct device_id as [d|]; new_socket_fields; rewrite ?Hd;
      (destruct ns; cbn [registry_of]; new_socket_fields; [by left|]);
      (destruct (decide (k = p)) as [->|Hne];
       [rewrite lookup_insert_eq; intros [= <-]; by right
       |rewrite lookup_insert_ne by done; by left]).
  - destruct ns; by left.
Qed.

(** A fresh id is in no bucket. *)
Lemma fresh_not_in_bucket ns s uuid k ids :
  wf s → map_Forall (λ _ ws, clientId ws ≠ uuid) (heap s) →
  registry_of ns s !! k = Some ids → uuid ∉ ids.
Proof.
  intros Hwf Hfresh Hk Hin. destruct (wf_registry ns s Hwf) as [Hreg _].
  destruct (Hreg k ids Hk) as [_ Hmem].
  destruct (Hmem uuid Hin) as (t & w & Hw & Hcid & _).
  by apply (Hfresh t w Hw).
Qed.

Section tidy_invariant.
Context `{JSON}.

Lemma tidy_step s e : wf s → tidy s → allowed s e → tidy (step e s).1.
Proof.
  intros Hwf [Hnd Hok] Hallowed.
  assert (Hkeep : same_registry s (step e s).1 →
    (∀ t w', heap (step e s).1 !! t = Some w' →
             ∃ w, heap s !! t = Some w ∧ later w w') →
    tidy (step e s).1).
  { intros (_ & _ & _ & Hd & Hp) Hlater. split.
    - intros ns k ids. destruct ns; cbn [registry_of]; rewrite ?Hd, ?Hp;
        [apply (Hnd device)|apply (Hnd product)].
    - intros t w' Hw'. destruct (Hlater t w' Hw') as (w & Hw & Hl).
      eapply socket_ok_later; [by eapply Hok|done]. }
  destruct e as [r uuid now d p|r msg now|r|r|r err|]; cbn [step] in *.
  - destruct Hallowed as [Hnew Hfresh].
    destruct (on_connection_socket r uuid now d p s)
      as (ws & Hheap & Hws & _).
    split.
    + intros ns k ids [Hold|Hnew']%on_connection_registry;
        [by eapply Hnd|subst ids].
      destruct (registry_of ns s !! k) as [old|] eqn:Hk; cbn [default].
      * apply NoDup_app. split; [by eapply Hnd|].
        split; [|apply NoDup_singleton].
        intros x Hx ->%list_elem_of_singleton.
        by eapply (fresh_not_in_bucket ns s uuid k old).
      * apply NoDup_singleton.
    + intros t w'. rewrite Hheap. destruct (decide (t = r)) as [->|Hne].
      * rewrite lookup_insert_eq. by intros [= <-].
      * rewrite lookup_insert_ne by done. apply Hok.
  - apply Hkeep; [apply on_message_same|apply on_message_later].
  - apply Hkeep; [apply on_pong_same|]. unfold on_pong.
    destruct (heap s !! r) as [ws|] eqn:Hr; [|apply sockets_later_refl].
    destruct (listeners ws); [|apply sockets_later_refl].
    apply (sockets_later_store s r ws); [done|].
    by split; [|split; [|split]].
  - destruct (heap s !! r) as [ws|] eqn:Hr;
      [|by rewrite (on_close_None r s Hr)].
    split.
    + intros ns k ids. destruct (listeners ws) eqn:Hl.
      * rewrite (on_close_registry ns r s ws Hr Hl).
        apply unregister_NoDup. apply Hnd.
      * rewrite (on_close_Some r s ws Hr). cbn [fst]. rewrite Hl.
        destruct ns; [apply (Hnd device)|apply (Hnd product)].
    + intros t w'. destruct (decide (t = r)) as [->|Hne].
      * rewrite (on_close_heap r s ws Hr). intros [= <-].
        eapply socket_ok_later; [by eapply Hok|].
        by split; [|split; [|split]].
      * rewrite (proj1 (on_close_other r s t Hne)). apply Hok.
  - apply Hkeep; [apply on_error_same|]. unfold on_error.
    destruct (heap s !! r) as [ws|]; [|apply sockets_later_refl].
    destruct (listeners ws); apply sockets_later_refl.
  - apply Hkeep; [apply heartbeat_same|apply heartbeat_each_later].
Qed.

Lemma reachable_tidy s : reachable s → tidy s.
Proof.
  induction 1 as [|s e Hs IH Hok].
  - split; [by intros []|done].
  - apply tidy_step; [by apply reachable_wf|done|done].
Qed.

End tidy_invariant.

(** ** Consequences for delivery and for the tables *)

Lemma recipients_NoDup s ids :
  wf s → NoDup ids → NoDup (recipients s ids).
Proof.
  intros Hwf. induction 1 as [|id ids Hid Hnd IH]; [constructor|].
  unfold recipients in *. cbn [mbind list_bind]. fold (recipients s ids) in *.
  apply NoDup_app. split; [|split; [|exact IH]].
  - destruct (clients s !! id) as [t|]; [|constructor].
    destruct (heap s !! t) as [w|]; [|constructor].
    case_bool_decide; [apply NoDup_singleton|constructor].
  - intros t Ht (id' & w' & Hid' & Hc' & _)%elem_of_recipients.
    destruct (clients s !! id) as [t0|] eqn:Hc; [|by inversion Ht].
    destruct (heap s !! t0) as [w|]; [|by inversion Ht].
    case_bool_decide; [|by inversion Ht].
    apply list_elem_of_singleton in Ht as ->.
    destruct (proj1 (wf_clients s Hwf id t0) Hc) as (w1 & Hw1 & Hcid1 & _).
    destruct (proj1 (wf_clients s Hwf id' t0) Hc') as (w2 & Hw2 & Hcid2 & _).
    assert (id' = id) as -> by congruence. done.
Qed.

Section delivery.
Context `{JSON}.

(** X9.  No socket gets a message twice: in a reachable state the sends
    made for one valid frame are pairwise different, and there are at most
    as many as the bucket has ids. *)
Theorem no_duplicate_delivery s r ws msg now message ns X :
  reachable s →
  heap s !! r = Some ws → listeners ws = true →
  (messageCount (count_message now ws) ≤ 25)%Z →
  JSON_parse msg = Some message →
  member message "target" = inr (Some (JSString (target_of ns))) →
  member message (field_of ns) = inr (Some (JSString X)) →
  X ≠ "" →
  NoDup (on_message r msg now s).2
  ∧ length (on_message r msg now s).2
    ≤ length (default [] (registry_of ns s !! X)).
Proof.
  intros Hreach Hr Hl Hcount Hparse Htarget Hid HX.
  pose proof (reachable_wf s Hreach) as Hwf.
  destruct (reachable_tidy s Hreach) as [Hnd _].
  rewrite (on_message_routed s r ws msg now message ns X) by done.
  cbn [snd]. split.
  - apply NoDup_fmap_2; [by intros t1 t2 [= ->]|].
    apply recipients_NoDup; [done|].
    destruct (registry_of ns s !! X) as [ids|] eqn:Hids; [|constructor].
    by eapply Hnd.
  - rewrite length_map. generalize (default [] (registry_of ns s !! X)).
    intros ids. unfold recipients. induction ids as [|id ids IH]; [done|].
    cbn [mbind list_bind]. rewrite length_app. cbn [length].
    destruct (clients s !! id) as [t|]; [|cbn; lia].
    destruct (heap s !! t) as [w|]; [|cbn; lia].
    case_bool_decide; cbn; lia.
Qed.

(** X10.  In a reachable state an id is in the Connection Table exactly
    when it is in a bucket; it is never in both registries, and within a
    registry never in two buckets. *)
Theorem table_registry_agree s id :
  reachable s →
  (is_Some (clients s !! id) ↔
   in_registry id (deviceIdClients s) ∨ in_registry id (productIdClients s))
  ∧ ¬ (in_registry id (deviceIdClients s)
       ∧ in_registry id (productIdClients s))
  ∧ (∀ ns k1 k2 ids1 ids2,
       registry_of ns s !! k1 = Some ids1 → id ∈ ids1 →
       registry_of ns s !! k2 = Some ids2 → id ∈ ids2 → k1 = k2).
Proof.
  intros Hreach. pose proof (reachable_wf s Hreach) as Hwf.
  destruct (reachable_tidy s Hreach) as [_ Hok].
  assert (Hbound : ∀ ns k ids, registry_of ns s !! k = Some ids → id ∈ ids →
    ∃ t w, heap s !! t = Some w ∧ clientId w = id
           ∧ bound_to ns w = Some k ∧ registered w).
  { intros ns k ids Hk Hin. destruct (wf_registry ns s Hwf) as [Hreg _].
    destruct (Hreg k ids Hk) as [_ Hmem]. by apply Hmem. }
  assert (Hone : ∀ t1 w1 t2 w2, heap s !! t1 = Some w1 → clientId w1 = id →
    heap s !! t2 = Some w2 → clientId w2 = id → w1 = w2).
  { intros t1 w1 t2 w2 H1 Hc1 H2 Hc2.
    assert (t1 = t2) by (eapply (wf_uuid s Hwf); [done|done|congruence]).
    congruence. }
  split; [split|split].
  - intros [t Ht]. apply (wf_clients s Hwf) in Ht as (w & Hw & Hcid & Hreg).
    destruct (Hok t w Hw) as [Hrole _]. rewrite (proj1 Hreg) in Hrole.
    destruct Hrole as [(k & _ & Hd & _)|(k & _ & Hp & _)].
    + left. destruct (wf_registry device s Hwf) as [_ Hout].
      destruct (Hout t w k Hw Hreg Hd) as [_ (ids & Hids & Hin)].
      exists k, ids. by rewrite <- Hcid.
    + right. destruct (wf_registry product s Hwf) as [_ Hout].
      destruct (Hout t w k Hw Hreg Hp) as [_ (ids & Hids & Hin)].
      exists k, ids. by rewrite <- Hcid.
  - intros [(k & ids & Hk & Hin)|(k & ids & Hk & Hin)].
    + destruct (Hbound device k ids Hk Hin) as (t & w & Hw & Hcid & _ & Hreg).
      exists t. apply (wf_clients s Hwf). by exists w.
    + destruct (Hbound product k ids Hk Hin) as (t & w & Hw & Hcid & _ & Hreg).
      exists t. apply (wf_clients s Hwf). by exists w.
  - intros [(k1 & ids1 & Hk1 & Hin1) (k2 & ids2 & Hk2 & Hin2)].
    destruct (Hbound device k1 ids1 Hk1 Hin1) as (t1 & w1 & Hw1 & Hc1 & Hd & _).
    destruct (Hbound product k2 ids2 Hk2 Hin2)
      as (t2 & w2 & Hw2 & Hc2 & Hp & _).
    assert (w1 = w2) as -> by by eapply Hone.
    cbn in Hd, Hp. destruct (wf_role s Hwf t2 w2 Hw2); congruence.
  - intros ns k1 k2 ids1 ids2 Hk1 Hin1 Hk2 Hin2.
    destruct (Hbound ns k1 ids1 Hk1 Hin1) as (t1 & w1 & Hw1 & Hc1 & Hb1 & _).
    destruct (Hbound ns k2 ids2 Hk2 Hin2) as (t2 & w2 & Hw2 & Hc2 & Hb2 & _).
    assert (w1 = w2) as -> by by eapply Hone. congruence.
Qed.

(** X11.  In a reachable state every socket is as it was made: an
    admitted one is bound to exactly one non-empty identifier, of one
    namespace, a rejected one to none, and a socket that is open is an
    admitted one on which [isTerminating] is not set. *)
Theorem sockets_stay_ok s r ws :
  reachable s → heap s !! r = Some ws → socket_ok ws.
Proof. intros Hreach Hr. by eapply (proj2 (reachable_tidy s Hreach)). Qed.

(** X12.  A socket that the rate limiter has closed, or one that was
    rejected at admission, is never sent a relayed message, whatever bucket
    the message is for. *)
Theorem closed_out_never_relayed s r ws ids :
  reachable s → heap s !! r = Some ws →
  isTerminating ws = true ∨ listeners ws = false →
  readyState ws ≠ OPEN ∧ r ∉ recipients s ids.
Proof.
  intros Hreach Hr Hout.
  destruct (proj2 (reachable_tidy s Hreach) r ws Hr) as [_ Hopen].
  assert (Hno : readyState ws ≠ OPEN).
  { intros Ho. destruct (Hopen Ho). destruct Hout; congruence. }
  split; [done|].
  intros (id & w & _ & _ & Hw & Ho)%elem_of_recipients. congruence.
Qed.

(** X13.  In a reachable state the Connection Table holds, under its own
    id, exactly each admitted socket whose 'close' event has not fired, and
    every such socket is in [wss.clients], where the heartbeat finds it. *)
Theorem table_entries_live s r ws :
  reachable s → heap s !! r = Some ws →
  (clients s !! clientId ws = Some r ↔
   listeners ws = true ∧ readyState ws ≠ CLOSED)
  ∧ (clients s !! clientId ws = Some r → r ∈ wss_clients s)
  ∧ (∀ id, clients s !! id = Some r → id = clientId ws).
Proof.
  intros Hreach Hr. pose proof (reachable_wf s Hreach) as Hwf.
  split; [split|split].
  - intros (w & Hw & _ & Hreg)%(wf_clients s Hwf).
    by assert (w = ws) as -> by congruence.
  - intros Hreg. apply (wf_clients s Hwf). by exists ws.
  - intros (w & Hw & _ & _ & Hopen)%(wf_clients s Hwf).
    apply (wf_live s Hwf). by exists w.
  - intros id (w & Hw & Hcid & _)%(wf_clients s Hwf). congruence.
Qed.

End delivery.

Lemma sample_rejected_reachable : @reachable sample_JSON sample_rejected.
Proof.
  apply reachable_run; [apply sample_relay_reachable|].
  apply (bool_decide_unpack _). by vm_compute.
Qed.

Lemma no_duplicate_delivery_witness :
  NoDup (@on_message sample_JSON 2 (sample_stringify to_lamp) 6
           sample_relay).2
  ∧ length (@on_message sample_JSON 2 (sample_stringify to_lamp) 6
              sample_relay).2 ≤ 2.
Proof.
  apply (@no_duplicate_delivery sample_JSON sample_relay 2
           (mkWebSocket "uuid-c" true false 0 0 None (Some "observer-7") OPEN
              true)
           (sample_stringify to_lamp) 6 to_lamp device "lamp"
           sample_relay_reachable); try reflexivity.
  - vm_compute. discriminate.
  - discriminate.
Defined.

Lemma table_registry_agree_witness :
  (is_Some (clients sample_relay !! "uuid-a") ↔
   in_registry "uuid-a" (deviceIdClients sample_relay)
   ∨ in_registry "uuid-a" (productIdClients sample_relay))
  ∧ ¬ (in_registry "uuid-a" (deviceIdClients sample_relay)
       ∧ in_registry "uuid-a" (productIdClients sample_relay)).
Proof.
  destruct (@table_registry_agree sample_JSON sample_relay "uuid-a"
              sample_relay_reachable) as (Hiff & Hnot & _).
  by split.
Defined.

Lemma sockets_stay_ok_witness :
  socket_ok
    (mkWebSocket "uuid-d" true false 0 9 None None CLOSING false).
Proof.
  by apply (@sockets_stay_ok sample_JSON sample_rejected 3 _
              sample_rejected_reachable).
Defined.

Lemma closed_out_never_relayed_witness :
  3%nat ∉ recipients sample_rejected ["uuid-a"; "uuid-d"].
Proof.
  apply (@closed_out_never_relayed sample_JSON sample_rejected 3
           (mkWebSocket "uuid-d" true false 0 9 None None CLOSING false)
           ["uuid-a"; "uuid-d"] sample_rejected_reachable eq_refl).
  by right.
Defined.

Lemma table_entries_live_witness :
  clients sample_relay !! "uuid-b" = Some 1%nat
  ∧ 1%nat ∈ wss_clients sample_relay.
Proof.
  destruct (@table_entries_live sample_JSON sample_relay 1
              (mkWebSocket "uuid-b" true false 0 0 (Some "lamp") None OPEN
                 true) sample_relay_reachable eq_refl) as (Hiff & Hin & _).
  assert (Hc : clients sample_relay !! "uuid-b" = Some 1%nat)
    by (apply Hiff; by split).
  split; [exact Hc|by apply Hin].
Defined.

(** ** Connections that come and go *)

Lemma filter_ne_fresh (r : nat) (l : list nat) :
  r ∉ l → filter (λ x, x ≠ r) (l ++ [r]) = l.
Proof.
  intros Hr. rewrite filter_app, filter_cons, decide_False by (by intros ?).
  rewrite filter_nil, app_nil_r.
  induction l as [|x l IH]; [done|].
  apply not_elem_of_cons in Hr as [Hx Hl].
  by rewrite filter_cons, decide_True, IH by done.
Qed.

Lemma filter_ne_last (id : string) (l : list string) :
  id ∉ l → filter (λ e, e ≠ id) (l ++ [id]) = l.
Proof.
  intros Hr. rewrite filter_app, filter_cons, decide_False by (by intros ?).
  rewrite filter_nil, app_nil_r.
  induction l as [|x l IH]; [done|].
  apply not_elem_of_cons in Hr as [Hx Hl].
  by rewrite filter_cons, decide_True, IH by done.
Qed.

(** Joining a bucket and leaving it again gives the registry back. *)
Lemma unregister_register (m : gmap string (list string)) k id :
  k ≠ "" → (∀ ids, m !! k = Some ids → ids ≠ [] ∧ id ∉ ids) →
  unregister (Some k) id (<[k := default [] (m !! k) ++ [id]]> m) = m.
Proof.
  intros Hk Hm. apply map_eq. intros k'.
  destruct (decide (k' = k)) as [->|Hne].
  - rewrite unregister_lookup_own, lookup_insert_eq by done.
    assert (Hd : ∀ x : list string, default [] (Some x) = x) by done.
    rewrite Hd. destruct (m !! k) as [old|] eqn:Hold.
    + destruct (Hm old eq_refl) as [Hnil Hnot]. rewrite Hd.
      rewrite filter_ne_last by done. by destruct old.
    + change (default [] None ++ [id]) with [id].
      by rewrite filter_cons, decide_False by (by intros ?).
  - rewrite unregister_lookup_other, lookup_insert_ne by congruence. done.
Qed.

Ltac round_trip_fields :=
  cbn [fst set_listeners set_deviceId set_productId set_readyState listeners
       clientId deviceId productId close_listener store set_heap
       set_wss_clients set_clients set_deviceIdClients set_productIdClients
       heap wss_clients clients deviceIdClients productIdClients].

Section come_and_go.
Context `{JSON}.

(** X14.  A connection that is opened and closes before anything else
    happens leaves no trace: whether it was admitted or rejected, the
    Connection Table, both registries and [wss.clients] are again what they
    were before it arrived. *)
Theorem connect_close_round_trip s r uuid now device_id product_id :
  reachable s → allowed s (Connection r uuid now device_id product_id) →
  let s1 := (on_connection r uuid now device_id product_id s).1 in
  clients (on_close r s1).1 = clients s
  ∧ deviceIdClients (on_close r s1).1 = deviceIdClients s
  ∧ productIdClients (on_close r s1).1 = productIdClients s
  ∧ wss_clients (on_close r s1).1 = wss_clients s.
Proof.
  intros Hreach [Hnew Hfresh]. pose proof (reachable_wf s Hreach) as Hwf.
  assert (Hnotin : r ∉ wss_clients s).
  { intros (w & Hw & _)%(wf_live s Hwf). congruence. }
  assert (Hclients : clients s !! uuid = None).
  { destruct (clients s !! uuid) as [t|] eqn:Hc; [|done].
    apply (wf_clients s Hwf) in Hc as (w & Hw & Hcid & _).
    by destruct (Hfresh t w Hw). }
  assert (Hbucket : ∀ ns k, k ≠ "" →
    unregister (Some k) uuid
      (<[k := default [] (registry_of ns s !! k) ++ [uuid]]>
         (registry_of ns s)) = registry_of ns s).
  { intros ns k Hk. apply unregister_register; [done|].
    intros ids Hids. split; [by eapply wf_no_empty_bucket|].
    by eapply fresh_not_in_bucket. }
  pose proof (Hbucket device) as Hdev. pose proof (Hbucket product) as Hprod.
  cbn [registry_of] in Hdev, Hprod.
  cbv zeta. unfold on_connection.
  destruct (truthy_str device_id) eqn:Hd, (truthy_str product_id) eqn:Hp;
    cbn [negb andb fst].
  - erewrite on_close_Some by (new_socket_fields; apply lookup_insert_eq).
    cbn. by rewrite filter_ne_fresh.
  - destruct device_id as [d|]; [|done].
    assert (d ≠ "") by by apply truthy_str_Some.
    destruct product_id as [p|]; new_socket_fields; rewrite ?Hp;
      (erewrite on_close_Some by (new_socket_fields; apply lookup_insert_eq));
      round_trip_fields;
      rewrite Hdev, delete_insert_id, filter_ne_fresh by done;
      cbn [unregister]; done.
  - destruct product_id as [p|]; [|done].
    assert (p ≠ "") by by apply truthy_str_Some.
    destruct device_id as [d|]; new_socket_fields; rewrite ?Hd;
      (erewrite on_close_Some by (new_socket_fields; apply lookup_insert_eq));
      round_trip_fields;
      rewrite Hprod, delete_insert_id, filter_ne_fresh by done;
      cbn [unregister]; done.
  - erewrite on_close_Some by (new_socket_fields; apply lookup_insert_eq).
    cbn. by rewrite filter_ne_fresh.
Qed.

(** X15.  A connection rejected at admission has no listeners: a frame or
    a pong that it sends afterwards is not looked at, counted, routed or
    logged, and the state stays as the rejection left it.  An 'error' event
    on it finds no listener either, so it is not logged but thrown. *)
Theorem rejected_is_ignored s r uuid now device_id product_id msg later_now :
  truthy_str device_id = truthy_str product_id →
  let s1 := (on_connection r uuid now device_id product_id s).1 in
  on_message r msg later_now s1 = (s1, [])
  ∧ on_pong r s1 = (s1, [])
  ∧ ∀ error, emit_error r error s1 = inl error.
Proof.
  intros Hsame. cbv zeta.
  assert (Hr : ∃ ws,
    heap (on_connection r uuid now device_id product_id s).1 !! r = Some ws
    ∧ listeners ws = false).
  { unfold on_connection. rewrite Hsame.
    destruct (truthy_str product_id); cbn [negb andb fst];
      eexists; new_socket_fields; by rewrite lookup_insert_eq. }
  destruct Hr as (ws & Hr & Hl).
  unfold on_message, on_pong, emit_error. by rewrite Hr, Hl.
Qed.

End come_and_go.

Lemma connect_close_round_trip_witness :
  deviceIdClients
    (on_close 5 (on_connection 5 "uuid-f" 40 (Some "lamp") None
                   sample_relay).1).1
  = deviceIdClients sample_relay
  ∧ clients
      (on_close 5 (on_connection 5 "uuid-f" 40 (Some "lamp") None
                     sample_relay).1).1
    = clients sample_relay.
Proof.
  destruct (@connect_close_round_trip sample_JSON sample_relay 5 "uuid-f" 40
              (Some "lamp") None sample_relay_reachable)
    as (Hc & Hd & _).
  - apply (bool_decide_unpack _). vm_compute. exact I.
  - split; [exact Hd|exact Hc].
Defined.

Lemma rejected_is_ignored_witness :
  @on_message sample_JSON 3 (sample_stringify to_lamp) 50 sample_rejected
  = (sample_rejected, [])
  ∧ on_pong 3 sample_rejected = (sample_rejected, [])
  ∧ emit_error 3 (Error "read ECONNRESET") sample_rejected
    = inl (Error "read ECONNRESET").
Proof.
  destruct (@rejected_is_ignored sample_JSON sample_relay 3 "uuid-d" 9 None
              None (sample_stringify to_lamp) 50 eq_refl)
    as (Hmsg & Hpong & Herr).
  split; [exact Hmsg|]. split; [exact Hpong|]. exact (Herr _).
Defined.

(** ** The heartbeat, again *)

Lemma heartbeat_each_calls rs s :
  (∀ r, r ∈ rs → is_Some (heap s !! r)) →
  length (heartbeat_each rs s).2 = length rs
  ∧ ∀ e, e ∈ (heartbeat_each rs s).2 →
         ∃ r, r ∈ rs ∧ (e = ws_ping r ∨ e = ws_terminate r).
Proof.
  revert s. induction rs as [|r0 rs IH]; intros s Hin.
  - split; [done|by inversion 1].
  - cbn [heartbeat_each].
    pose proof (heartbeat_one_effects r0 s) as Hfx1.
    pose proof (heartbeat_one_lookup r0 s) as Hheap1.
    destruct (heartbeat_one r0 s) as [s1 fx1]. cbn [fst snd] in *.
    destruct (IH s1) as [Hlen Hcalls].
    { intros r Hr. rewrite Hheap1.
      destruct (Hin r) as [w Hw]; [by right|]. rewrite Hw.
      by case_decide. }
    destruct (heartbeat_each rs s1) as [s2 fx2]. cbn [fst snd] in *.
    destruct (Hin r0) as [w0 Hw0]; [by left|]. rewrite Hw0 in Hfx1.
    split.
    + rewrite length_app, Hlen, Hfx1. by destruct (isAlive w0).
    + intros e [He|He]%elem_of_app.
      * exists r0. split; [by left|]. rewrite Hfx1 in He.
        destruct (isAlive w0); apply list_elem_of_singleton in He; by eauto.
      * destruct (Hcalls e He) as (r & Hr & Hcall). exists r.
        split; [by right|done].
Qed.

Lemma heartbeat_each_exact rs s s0 :
  NoDup rs →
  (∀ r, r ∈ rs → is_Some (heap s !! r) ∧ heap s !! r = heap s0 !! r) →
  Forall2 (λ r e, tick_call s0 r = Some e) rs (heartbeat_each rs s).2.
Proof.
  revert s. induction rs as [|r0 rs IH]; intros s Hnd Hin.
  - apply Forall2_nil_2.
  - apply NoDup_cons in Hnd as [Hr0 Hnd]. cbn [heartbeat_each].
    pose proof (heartbeat_one_effects r0 s) as Hfx1.
    pose proof (heartbeat_one_lookup r0 s) as Hheap1.
    destruct (heartbeat_one r0 s) as [s1 fx1]. cbn [fst snd] in *.
    specialize (IH s1 Hnd).
    destruct (heartbeat_each rs s1) as [s2 fx2]. cbn [fst snd] in *.
    destruct (Hin r0) as [[w0 Hw0] Hsame]; [by left|].
    rewrite Hw0 in Hfx1.
    assert (Hone : fx1 = [if isAlive w0 then ws_ping r0 else ws_terminate r0])
      by (rewrite Hfx1; by destruct (isAlive w0)).
    rewrite Hone. cbn [app]. apply Forall2_cons. split.
    + unfold tick_call. by rewrite <- Hsame, Hw0.
    + apply IH. intros r Hr. rewrite Hheap1.
      rewrite decide_False by (intros ->; done).
      apply Hin. by right.
Qed.

Lemma on_socket_tick_call s0 r0 e r :
  tick_call s0 r0 = Some e → on_socket r e = bool_decide (r = r0).
Proof.
  unfold tick_call, on_socket. destruct (heap s0 !! r0) as [w|]; [|done].
  intros [= <-]. apply bool_decide_ext.
  destruct (isAlive w); split; try (intros [[= ->]|[= ->]]; done);
    intros ->; by eauto.
Qed.

Lemma one_call_each s0 rs fx r :
  NoDup rs →
  Forall2 (λ r e, tick_call s0 r = Some e) rs fx →
  length (filter (λ e, on_socket r e = true) fx)
  = if decide (r ∈ rs) then 1 else 0.
Proof.
  intros Hnd Hall. induction Hall as [|r0 e rs fx He Hall IH].
  - rewrite decide_False; [done|]. by inversion 1.
  - apply NoDup_cons in Hnd as [Hr0 Hnd]. specialize (IH Hnd).
    rewrite filter_cons, (on_socket_tick_call s0 r0 e r He).
    destruct (decide (r = r0)) as [->|Hne].
    + rewrite decide_True by by apply bool_decide_eq_true_2.
      rewrite decide_True by by left. cbn [length]. rewrite IH.
      by rewrite decide_False.
    + rewrite decide_False
        by (rewrite bool_decide_eq_false_2 by done; done).
      rewrite IH. destruct (decide (r ∈ rs)) as [Hr|Hr].
      * rewrite decide_True; [done|by right].
      * rewrite decide_False; [done|]. by intros [?|?]%elem_of_cons.
Qed.

Section ticks.
Context `{JSON}.

(** X16.  In a reachable state a heartbeat tick makes exactly one call per
    socket of [wss.clients] and no other call: [wss.clients] holds no socket
    twice, the calls are, in the order of [wss.clients], a ping for each
    socket that is alive and a terminate for each one that is not, so that
    for every socket of [wss.clients] exactly one of the calls is a ping or
    a terminate of that socket; and the tick leaves every socket of
    [wss.clients] with [isAlive] false. *)
Theorem heartbeat_covers_all s :
  reachable s →
  NoDup (wss_clients s)
  ∧ Forall2 (λ r e, tick_call s r = Some e) (wss_clients s) (heartbeat s).2
  ∧ (∀ r, r ∈ wss_clients s →
       length (filter (λ e, on_socket r e = true) (heartbeat s).2) = 1)
  ∧ (∀ e, e ∈ (heartbeat s).2 →
       ∃ r, r ∈ wss_clients s ∧ (e = ws_ping r ∨ e = ws_terminate r))
  ∧ (∀ r, r ∈ wss_clients (heartbeat s).1 →
       ∃ ws', heap (heartbeat s).1 !! r = Some ws' ∧ isAlive ws' = false).
Proof.
  intros Hreach. pose proof (reachable_wf s Hreach) as Hwf.
  pose proof (wf_nodup s Hwf) as Hnd.
  assert (Hin : ∀ r, r ∈ wss_clients s → is_Some (heap s !! r)).
  { intros r (w & Hw & _)%(wf_live s Hwf). by exists w. }
  assert (Hexact : Forall2 (λ r e, tick_call s r = Some e) (wss_clients s)
                     (heartbeat s).2).
  { apply heartbeat_each_exact; [done|]. intros r Hr. split; [auto|done]. }
  destruct (heartbeat_each_calls (wss_clients s) s Hin) as [_ Hcalls].
  split; [exact Hnd|]. split; [exact Hexact|].
  split.
  { intros r Hr. rewrite (one_call_each s (wss_clients s)) by done.
    by rewrite decide_True. }
  split; [exact Hcalls|].
  intros r Hr.
  destruct (heartbeat_same s) as (_ & Hw & _). rewrite Hw in Hr.
  destruct (heartbeat_each_spec (wss_clients s) s Hnd) as (Hheap & _ & _).
  fold (heartbeat s) in Hheap. rewrite Hheap, decide_True by done.
  destruct (Hin r Hr) as [w ->]. eexists. split; [done|].
  unfold after_tick, WebSocket_terminate.
  destruct (isAlive w) eqn:Ha; [done|]. by destruct (readyState w).
Qed.
(** X17.  A socket that the heartbeat terminates is from then on passed
    over by the router, although it stays in the Connection Table and in
    its bucket until its 'close' event. *)
Theorem terminated_not_relayed s r ws ids :
  reachable s → heap s !! r = Some ws → readyState ws ≠ CLOSED →
  isAlive ws = false →
  (r ∉ recipients (heartbeat s).1 ids)
  ∧ clients (heartbeat s).1 = clients s
  ∧ deviceIdClients (heartbeat s).1 = deviceIdClients s
  ∧ productIdClients (heartbeat s).1 = productIdClients s.
Proof.
  intros Hreach Hr Hopen Ha. pose proof (reachable_wf s Hreach) as Hwf.
  destruct (heartbeat_same s) as (_ & _ & Hc & Hd & Hp).
  split; [|done].
  assert (Hin : r ∈ wss_clients s) by (apply (wf_live s Hwf); by exists ws).
  destruct (heartbeat_each_spec (wss_clients s) s (wf_nodup s Hwf))
    as (Hheap & _ & _).
  fold (heartbeat s) in Hheap.
  intros (id & w & _ & _ & Hw & Ho)%elem_of_recipients.
  rewrite Hheap, decide_True, Hr in Hw by done. injection Hw as <-.
  unfold after_tick, WebSocket_terminate in Ho. rewrite Ha in Ho.
  by destruct (readyState ws).
Qed.

End ticks.

Lemma heartbeat_covers_all_witness :
  Forall2 (λ r e, tick_call sample_rejected r = Some e)
    (wss_clients sample_rejected) (heartbeat sample_rejected).2
  ∧ length (filter (λ e, on_socket 3 e = true) (heartbeat sample_rejected).2)
    = 1
  ∧ ∃ ws', heap (heartbeat sample_rejected).1 !! 3%nat = Some ws'
           ∧ isAlive ws' = false.
Proof.
  destruct (@heartbeat_covers_all sample_JSON sample_rejected
              sample_rejected_reachable) as (_ & Hexact & Hone & _ & Hdead).
  split; [exact Hexact|]. split.
  - apply Hone. apply (bool_decide_unpack _). vm_compute. exact I.
  - apply Hdead. apply (bool_decide_unpack _). vm_compute. exact I.
Defined.

Lemma terminated_not_relayed_witness :
  1%nat ∉ recipients (heartbeat (heartbeat sample_relay).1).1
            ["uuid-a"; "uuid-b"].
Proof.
  apply (@terminated_not_relayed sample_JSON (heartbeat sample_relay).1 1
           (mkWebSocket "uuid-b" false false 0 0 (Some "lamp") None OPEN true)
           ["uuid-a"; "uuid-b"]).
  - apply (reachable_step sample_relay Tick sample_relay_reachable I).
  - reflexivity.
  - discriminate.
  - reflexivity.
Defined.

(** ** The rate limiter, again *)

Section bursts.
Context `{JSON}.

Lemma run_app es1 es2 s :
  run (es1 ++ es2) s
  = ((run es2 (run es1 s).1).1, (run es1 s).2 ++ (run es2 (run es1 s).1).2).
Proof.
  revert s. induction es1 as [|e es1 IH]; intros s.
  - cbn [app run fst snd]. by destruct (run es2 s).
  - cbn [app]. rewrite !run_cons, IH. cbn [fst snd]. by rewrite app_assoc.
Qed.

Lemma try_route_store s r ws ws' msg :
  heap s !! r = Some ws → readyState ws' = readyState ws →
  try_route (store r ws' s) msg = try_route s msg.
Proof.
  intros Hr Hrs. unfold try_route. by rewrite (route_store s r ws ws').
Qed.

(** Frames that all arrive within the window of [ws] and do not take the
    counter past 25 are all routed: the calls of the run are those of
    routing each frame, in order. *)
Lemma run_within_window_routed r frames s ws :
  heap s !! r = Some ws → listeners ws = true →
  (messageCount ws + Z.of_nat (length frames) ≤ 25)%Z →
  Forall (λ f, (f.2 - messageWindow ws ≤ 1000)%Z) frames →
  (run (messages r frames) s).2 = frames ≫= λ f, try_route s f.1.
Proof.
  revert s ws. induction frames as [|[msg now] frames IH];
    intros s ws Hr Hl Hcount Hwin; [done|].
  apply Forall_cons in Hwin as [Hnow Hwin]. cbn [fst snd] in Hnow.
  cbn [length] in Hcount.
  destruct (count_message_same_window now ws Hnow) as [Hw1 Hc1].
  destruct (count_message_static now ws)
    as (_ & _ & _ & Hl1 & Hrs1 & _ & _).
  unfold messages. cbn [map]. rewrite run_cons. cbn [fst snd step].
  rewrite (on_message_accepted s r ws msg now Hr Hl) by lia.
  cbn [fst snd]. fold (messages r frames).
  rewrite (IH (store r (count_message now ws) s) (count_message now ws)).
  - cbn [mbind list_bind fst]. f_equal; [by eapply try_route_store|].
    apply list_bind_ext; [|done]. intros f. by eapply try_route_store.
  - apply lookup_insert_eq.
  - congruence.
  - lia.
  - by rewrite Hw1.
Qed.

Lemma run_within_window_same_routes r frames s ws msg :
  heap s !! r = Some ws → listeners ws = true →
  (messageCount ws + Z.of_nat (length frames) ≤ 25)%Z →
  Forall (λ f, (f.2 - messageWindow ws ≤ 1000)%Z) frames →
  try_route (run (messages r frames) s).1 msg = try_route s msg.
Proof.
  revert s ws. induction frames as [|[msg0 now] frames IH];
    intros s ws Hr Hl Hcount Hwin; [done|].
  apply Forall_cons in Hwin as [Hnow Hwin]. cbn [fst snd] in Hnow.
  cbn [length] in Hcount.
  destruct (count_message_same_window now ws Hnow) as [Hw1 Hc1].
  destruct (count_message_static now ws)
    as (_ & _ & _ & Hl1 & Hrs1 & _ & _).
  unfold messages. cbn [map]. rewrite run_cons. cbn [fst snd step].
  rewrite (on_message_accepted s r ws msg0 now Hr Hl) by lia.
  cbn [fst snd]. fold (messages r frames).
  rewrite (IH (store r (count_message now ws) s) (count_message now ws)).
  - by eapply try_route_store.
  - apply lookup_insert_eq.
  - congruence.
  - lia.
  - by rewrite Hw1.
Qed.

(** X18.  The window is fixed, not sliding: 25 frames that arrive before a
    window ends and 25 more that arrive once it has passed are all accepted,
    however close in time the two groups are.  None of the 50 is dropped by
    the limiter: the calls of the run are exactly those of routing each
    frame, in order; the counter ends at 25 in the window that the 26th
    frame opened; and nothing is closed. *)
Theorem window_boundary_burst s r ws before msg now after :
  heap s !! r = Some ws → listeners ws = true → messageCount ws = 0%Z →
  length before = 25 →
  Forall (λ f, (f.2 - messageWindow ws ≤ 1000)%Z) before →
  (now - messageWindow ws > 1000)%Z →
  length after = 24 →
  Forall (λ f, (f.2 - now ≤ 1000)%Z) after →
  let frames := before ++ (msg, now) :: after in
  (run (messages r frames) s).2 = (frames ≫= λ f, try_route s f.1)
  ∧ (∃ ws', heap (run (messages r frames) s).1 !! r = Some ws'
            ∧ messageCount ws' = 25%Z ∧ messageWindow ws' = now)
  ∧ ∀ e, e ∈ (run (messages r frames) s).2 → is_close e = false.
Proof.
  intros Hr Hl Hzero Hlen1 Hwin1 Hnow Hlen2 Hwin2. cbv zeta.
  destruct (run_within_window r before s ws Hr Hl)
    as [(ws25 & Hr25 & Hc25 & Hw25 & _ & Hl25 & _) Hfx1]; [lia|done|].
  assert (Hroute1 : (run (messages r before) s).2
                    = before ≫= λ f, try_route s f.1).
  { apply (run_within_window_routed r before s ws Hr Hl); [lia|done]. }
  destruct (count_message_window now ws25) as [Hw26 Hc26];
    [by rewrite Hw25|].
  destruct (count_message_static now ws25)
    as (_ & _ & _ & Hl26 & Hrs26 & _).
  assert (Hr26 : heap (store r (count_message now ws25)
                         (run (messages r before) s).1) !! r
                 = Some (count_message now ws25))
    by apply lookup_insert_eq.
  assert (Hl26' : listeners (count_message now ws25) = true) by congruence.
  assert (Hwin3 : Forall (λ f : string * Z,
                    (f.2 - messageWindow (count_message now ws25) ≤ 1000)%Z)
                    after) by by rewrite Hw26.
  destruct (run_within_window r after _ _ Hr26 Hl26')
    as [(ws50 & Hr50 & Hc50 & Hw50 & _) Hfx3]; [lia|done|].
  assert (Hroute3 := run_within_window_routed r after _ _ Hr26 Hl26').
  rewrite Hc26, Hlen2 in Hroute3. specialize (Hroute3 ltac:(lia) Hwin3).
  assert (Hsame : ∀ m,
    try_route (store r (count_message now ws25) (run (messages r before) s).1)
      m = try_route s m).
  { intros m. rewrite (try_route_store _ r ws25) by done.
    apply (run_within_window_same_routes r before s ws m Hr Hl); [lia|done]. }
  unfold messages. rewrite map_app. cbn [map fst snd].
  fold (messages r before) (messages r after).
  rewrite run_app, run_cons. cbn [fst snd step].
  rewrite (on_message_accepted _ r ws25 msg now Hr25 Hl25) by lia.
  cbn [fst snd].
  split; [|split].
  - rewrite Hroute1, Hroute3, Hsame, bind_app. cbn [mbind list_bind fst].
    do 2 f_equal. apply list_bind_ext; [|done]. intros f. apply Hsame.
  - exists ws50. split; [exact Hr50|]. split; [lia|]. by rewrite Hw50.
  - intros e [He|[He|He]%elem_of_app]%elem_of_app.
    + by apply Hfx1.
    + by eapply try_route_no_close.
    + by apply Hfx3.
Qed.

End bursts.

Lemma window_boundary_burst_witness :
  let frames :=
    replicate 25 (sample_stringify to_lamp, 1000%Z)
    ++ (sample_stringify to_lamp, 1001%Z)
       :: replicate 24 (sample_stringify to_lamp, 1001%Z) in
  (@run sample_JSON (messages 0 frames) sample_relay).2
  = (frames ≫= λ f, @try_route sample_JSON sample_relay f.1)
  ∧ Forall (λ e, is_close e = false)
      (@run sample_JSON (messages 0 frames) sample_relay).2.
Proof.
  assert (Hall : ∀ n t bound, (t - bound ≤ 1000)%Z →
    Forall (λ f : string * Z, (f.2 - bound ≤ 1000)%Z)
      (replicate n (sample_stringify to_lamp, t))).
  { intros n t bound Ht. apply Forall_forall.
    by intros f [-> _]%elem_of_replicate. }
  destruct (@window_boundary_burst sample_JSON sample_relay 0
           (mkWebSocket "uuid-a" true false 0 0 (Some "lamp") None OPEN true)
           (replicate 25 (sample_stringify to_lamp, 1000%Z))
           (sample_stringify to_lamp) 1001%Z
           (replicate 24 (sample_stringify to_lamp, 1001%Z))
           eq_refl eq_refl eq_refl eq_refl) as (Hroutes & _ & Hclose).
  - apply Hall. cbn. lia.
  - cbn. lia.
  - reflexivity.
  - apply Hall. lia.
  - split; [exact Hroutes|]. apply Forall_forall. exact Hclose.
Defined.

(** ** The close listener of the first revisions *)

Lemma unregister_draft_id key (m : gmap string (list string)) :
  (∀ k ids, m !! k = Some ids → ids ≠ []) → unregister_draft key m = m.
Proof.
  intros Hm. unfold unregister_draft. destruct key as [k|]; [|done].
  destruct (truthy_str (Some k)); [|done].
  destruct (m !! k) as [ids|] eqn:Hk.
  - rewrite bool_decide_eq_false_2; [done|].
    cbn. destruct ids; [by destruct (Hm k [] Hk)|done].
  - rewrite bool_decide_eq_true_2 by done. by apply delete_id.
Qed.

(** X19.  The close listener of the first revisions never takes an id out
    of a bucket: on a state without empty buckets it leaves both registries
    as they are, so the id of the closed connection stays where it was,
    while its entry of the Connection Table goes. *)
Theorem close_listener_draft_leaves_ids ws s :
  (∀ ns k ids, registry_of ns s !! k = Some ids → ids ≠ []) →
  deviceIdClients (close_listener_draft ws s) = deviceIdClients s
  ∧ productIdClients (close_listener_draft ws s) = productIdClients s
  ∧ clients (close_listener_draft ws s) !! clientId ws = None
  ∧ (∀ ns, in_registry (clientId ws) (registry_of ns s) →
           in_registry (clientId ws)
             (registry_of ns (close_listener_draft ws s))).
Proof.
  intros Hm.
  assert (Hd : deviceIdClients (close_listener_draft ws s) = deviceIdClients s)
    by (cbn; apply unregister_draft_id, (Hm device)).
  assert (Hp : productIdClients (close_listener_draft ws s)
               = productIdClients s)
    by (cbn; apply unregister_draft_id, (Hm product)).
  split; [done|]. split; [done|]. split; [apply lookup_delete_eq|].
  intros ns. destruct ns; cbn [registry_of]; by rewrite ?Hd, ?Hp.
Qed.

Lemma close_listener_draft_leaves_ids_witness :
  deviceIdClients
    (close_listener_draft
       (mkWebSocket "uuid-a" true false 0 0 (Some "lamp") None OPEN true)
       sample_relay) !! "lamp" = Some ["uuid-a"; "uuid-b"]
  ∧ deviceIdClients
      (close_listener
         (mkWebSocket "uuid-a" true false 0 0 (Some "lamp") None OPEN true)
         sample_relay) !! "lamp" = Some ["uuid-b"].
Proof.
  destruct (close_listener_draft_leaves_ids
              (mkWebSocket "uuid-a" true false 0 0 (Some "lamp") None OPEN
                 true) sample_relay) as (Hd & _).
  - intros ns k ids. apply wf_no_empty_bucket.
    apply (@reachable_wf sample_JSON), sample_relay_reachable.
  - rewrite Hd. split; reflexivity.
Defined.
